(** * Blackjack simulator: scoring, moves, round state machine, settlement

    A shallow embedding of the Go packages [ai] (game.go, ai.go) and
    [main] (the card-counting strategy [basicAI]) of
    Scrimzay/blackjacksimulator, and the properties of the specification
    that are checked against it.  The file has three parts: the program,
    the vocabulary in which the properties are stated, and the
    properties, those of the specification first and further properties
    of the code after them.

    Conventions of the embedding.
    - Go [int] is the 64-bit two's complement integer.  Amounts of money,
      scores and counters are [Z] and every arithmetic operation that can
      overflow is followed by [wrap64].
    - [float64] is IEEE 754 binary64 as [SpecFloat] specifies it.
    - Slices are lists.  Indices and lengths are [nat]; an index
      expression out of range is a run-time panic.
    - A Go function that can panic returns [result]; a function returning
      [error] returns an [option error] next to the updated game.
    - The game is reached through a pointer and mutated in place; here a
      function that mutates the game returns the new game.  The hands are
      only reached through the game.  During the player's and the dealer's
      turn no two of its slices share a backing array: [deal] allocates
      both hands, [MoveSplit] builds the new hand from a fresh literal and
      keeps the prefix of the old one, [Play] hands a copy to the strategy
      and [endRound] drops the game's references.  So lists are exact. *)

From Stdlib Require Import ZArith Lia Bool String SpecFloat.
From stdpp Require Import base tactics option list relations.

Local Open Scope string_scope.
Local Open Scope list_scope.
Local Open Scope Z_scope.

(** ** Machine integers *)

Module Int64.

Definition min_int : Z := - 2 ^ 63.
Definition max_int : Z := 2 ^ 63 - 1.

(** The value a 64-bit signed register holds after computing [z]. *)
Definition wrap64 (z : Z) : Z := (z + 2 ^ 63) mod 2 ^ 64 - 2 ^ 63.

Definition in_range (z : Z) : Prop := min_int <= z <= max_int.

End Int64.
Export Int64.

(** [int8], the representation of the round state. *)
Definition wrap8 (z : Z) : Z := (z + 2 ^ 7) mod 2 ^ 8 - 2 ^ 7.

(** ** Outcomes of a call *)

(** [Ok a]: the call returns [a].  [Panic msg]: the call panics.
    [Timeout]: the fuel given to a loop of the model ran out; it is not a
    behaviour of the program. *)
Inductive result (A : Type) : Type :=
| Ok (a : A)
| Panic (msg : string)
| Timeout.
Arguments Ok {A} a.
Arguments Panic {A} msg.
Arguments Timeout {A}.

Definition bind {A B} (m : result A) (k : A -> result B) : result B :=
  match m with
  | Ok a => k a
  | Panic msg => Panic msg
  | Timeout => Timeout
  end.

Declare Scope result_scope.
Delimit Scope result_scope with result.
Notation "'let*' x ':=' m 'in' k" := (bind m (fun x => k))
  (at level 10, x name, m at level 100, k at level 200) : result_scope.
Notation "'let*' ' p ':=' m 'in' k" :=
  (bind m (fun x => match x with p => k end))
  (at level 10, p pattern, m at level 100, k at level 200) : result_scope.
Local Open Scope result_scope.

(** Go's [error] values of the package: the sentinel [errBust] and the
    values built by [errors.New]. *)
Inductive error : Type :=
| errBust
| errorsNew (msg : string).

(** ** Cards *)

(** Modelled from the spec: the type declarations of package [deck]
    ([Suit], [Rank], [Card]) are not among the sources.  The string tables
    of the package give the order of the constants (Spade, Diamond, Club,
    Heart, Joker; Ace = 1 up to King = 13); [Rank] is an unsigned integer
    type, so [int(c.Rank)] is never negative. *)
Inductive suit : Type := Spade | Diamond | Club | Heart | Joker.

Record Card : Type := mkCard { Suit : suit; Rank : N }.

Definition Ace : N := 1.
Definition Two : N := 2.
Definition Three : N := 3.
Definition Four : N := 4.
Definition Five : N := 5.
Definition Six : N := 6.
Definition Seven : N := 7.
Definition Eight : N := 8.
Definition Nine : N := 9.
Definition Ten : N := 10.
Definition Jack : N := 11.
Definition Queen : N := 12.
Definition King : N := 13.

Global Instance suit_eq_dec : EqDecision suit.
Proof. solve_decision. Defined.

Global Instance Card_eq_dec : EqDecision Card.
Proof. solve_decision. Defined.

(** ** Scores (game.go) *)

(** [min]: the helper at the end of game.go. *)
Definition min (a b : Z) : Z := if a <? b then a else b.

(** [minScore]: the loop [score += min(int(c.Rank), 10)]. *)
Definition minScore (hand : list Card) : Z :=
  fold_left (fun score c => wrap64 (score + min (Z.of_N (Rank c)) 10)) hand 0.

(** The [for ... range hand] of [Score]: is there a card whose rank is
    [deck.Ace]? *)
Fixpoint hasAce (hand : list Card) : bool :=
  match hand with
  | [] => false
  | c :: hand' => if N.eqb (Rank c) Ace then true else hasAce hand'
  end.

Definition Score (hand : list Card) : Z :=
  let minScore := minScore hand in
  if minScore >? 11 then minScore
  else if hasAce hand then wrap64 (minScore + 10)
  else minScore.

Definition Soft (hand : list Card) : bool :=
  let minScore := minScore hand in
  let score := Score hand in
  negb (minScore =? score).

Definition Blackjack (hand : list Card) : bool :=
  (length hand =? 2)%nat && (Score hand =? 21).

(** ** float64 (the blackjack payout) *)

(** IEEE 754 binary64 as specified by [SpecFloat]: 53 bits of mantissa,
    round to nearest even. *)
Module Float64.

Definition prec : Z := 53.
Definition emax : Z := 1024.

Definition float64 : Type := spec_float.

(** The conversion [float64(n)] of an [int]: the nearest binary64. *)
Definition of_int (n : Z) : float64 := binary_normalize prec emax n 0 false.

Definition mul (x y : float64) : float64 := SFmul prec emax x y.

Definition eqb (x y : float64) : bool := SFeqb x y.

(** The integer part of a finite float, rounded toward zero. *)
Definition trunc (s : bool) (m : positive) (e : Z) : Z :=
  cond_Zopp s (if 0 <=? e then Z.pos m * 2 ^ e
               else Z.quot (Z.pos m) (2 ^ (- e))).

(** The conversion [int(f)]: the fraction is discarded (truncation
    toward zero).  When the value does not fit in [int] the Go
    specification leaves the result to the implementation; amd64 gives
    the "integer indefinite" value, the smallest [int]. *)
Definition to_int (f : float64) : Z :=
  match f with
  | S754_zero _ => 0
  | S754_finite s m e =>
      let t := trunc s m e in
      if (min_int <=? t) && (t <=? max_int) then t else min_int
  | S754_infinity _ | S754_nan => min_int
  end.

(** The literals [0.0] and [1.5]. *)
Definition zero : float64 := S754_zero false.
Definition one_and_a_half : float64 := Eval cbv in binary_normalize prec emax 3 (-1) false.

End Float64.
Export Float64.

(** ** The game (game.go) *)

(** [type state int8] and its three constants. *)
Definition statePlayerTurn : Z := 0.
Definition stateDealerTurn : Z := 1.
Definition stateHandOver : Z := 2.

Record Options : Type := mkOptions {
  Decks : Z;
  Hands : Z;
  BlackjackPayout : float64
}.

Record hand : Type := mkHand {
  cards : list Card;
  bet : Z
}.

(** The field [dealerAI] always holds the value [dealerAI{}], which has no
    state; the methods of [dealerAI] are defined further down and the
    dealer's loop calls them directly. *)
Record Game : Type := mkGame {
  nDecks : Z;
  nHands : Z;
  blackjackPayout : float64;
  deck : list Card;
  state : Z;
  player : list hand;
  handIdx : nat;
  playerBet : Z;
  balance : Z;
  dealer : list Card
}.

(** Assignments to one field. *)
Definition set_deck (d : list Card) (g : Game) : Game :=
  mkGame (nDecks g) (nHands g) (blackjackPayout g) d (state g) (player g)
         (handIdx g) (playerBet g) (balance g) (dealer g).
Definition set_state (s : Z) (g : Game) : Game :=
  mkGame (nDecks g) (nHands g) (blackjackPayout g) (deck g) s (player g)
         (handIdx g) (playerBet g) (balance g) (dealer g).
Definition set_player (p : list hand) (g : Game) : Game :=
  mkGame (nDecks g) (nHands g) (blackjackPayout g) (deck g) (state g) p
         (handIdx g) (playerBet g) (balance g) (dealer g).
Definition set_handIdx (i : nat) (g : Game) : Game :=
  mkGame (nDecks g) (nHands g) (blackjackPayout g) (deck g) (state g) (player g)
         i (playerBet g) (balance g) (dealer g).
Definition set_playerBet (b : Z) (g : Game) : Game :=
  mkGame (nDecks g) (nHands g) (blackjackPayout g) (deck g) (state g) (player g)
         (handIdx g) b (balance g) (dealer g).
Definition set_balance (b : Z) (g : Game) : Game :=
  mkGame (nDecks g) (nHands g) (blackjackPayout g) (deck g) (state g) (player g)
         (handIdx g) (playerBet g) b (dealer g).
Definition set_dealer (d : list Card) (g : Game) : Game :=
  mkGame (nDecks g) (nHands g) (blackjackPayout g) (deck g) (state g) (player g)
         (handIdx g) (playerBet g) (balance g) d.

Definition New (opts : Options) : Game :=
  let decks := if Decks opts =? 0 then 3 else Decks opts in
  let hands := if Hands opts =? 0 then 100 else Hands opts in
  let payout := if Float64.eqb (BlackjackPayout opts) Float64.zero
                then one_and_a_half else BlackjackPayout opts in
  mkGame decks hands payout [] statePlayerTurn [] 0%nat 0 0 [].

Definition index_out_of_range : string := "runtime error: index out of range".

(** [currentHand] returns a pointer; [currentHand] below is the slice it
    points to and [set_currentHand] is the assignment through it. *)
Definition currentHand (g : Game) : result (list Card) :=
  if state g =? statePlayerTurn then
    match player g !! handIdx g with
    | Some h => Ok (cards h)
    | None => Panic index_out_of_range
    end
  else if state g =? stateDealerTurn then Ok (dealer g)
  else Panic "It isn't currently any players' turn".

Definition set_cards (cs : list Card) (h : hand) : hand := mkHand cs (bet h).

Definition set_currentHand (cs : list Card) (g : Game) : Game :=
  if state g =? statePlayerTurn
  then set_player (alter (set_cards cs) (handIdx g) (player g)) g
  else set_dealer cs g.

(** The type [Move]: a function from a pointer to the game to an [error]. *)
Definition Move : Type := Game -> result (Game * option error).

(** [draw]: [cards[0], cards[1:]]. *)
Definition draw (cards : list Card) : result (Card * list Card) :=
  match cards with
  | c :: rest => Ok (c, rest)
  | [] => Panic index_out_of_range
  end.

Definition MoveHit : Move := fun g =>
  let* hand := currentHand g in
  let* '(card, rest) := draw (deck g) in
  let g := set_deck rest g in
  let hand := hand ++ [card] in
  let g := set_currentHand hand g in
  if Score hand >? 21 then Ok (g, Some errBust) else Ok (g, None).

Definition MoveSplit : Move := fun g =>
  let* cards := currentHand g in
  if negb (length cards =? 2)%nat then
    Ok (g, Some (errorsNew "You can only split with two cards in your hand"))
  else
    match cards with
    | c0 :: c1 :: _ =>
        if negb (Rank c0 =? Rank c1)%N then
          Ok (g, Some (errorsNew "Both cards must have the same rank to split"))
        else
          match player g !! handIdx g with
          | None => Panic index_out_of_range
          | Some h =>
              let g := set_player (player g ++ [mkHand [c1] (bet h)]) g in
              let g := set_player
                         (alter (set_cards (take 1 cards)) (handIdx g) (player g)) g in
              Ok (g, None)
          end
    | _ => Panic index_out_of_range
    end.

Definition MoveStand : Move := fun g =>
  if state g =? stateDealerTurn then
    Ok (set_state (wrap8 (state g + 1)) g, None)
  else if state g =? statePlayerTurn then
    let g := set_handIdx (S (handIdx g)) g in
    let g := if (length (player g) <=? handIdx g)%nat
             then set_state (wrap8 (state g + 1)) g else g in
    Ok (g, None)
  else Ok (g, Some (errorsNew "Invalid state")).

Definition MoveDouble : Move := fun g =>
  let* hand := currentHand g in
  if negb (length hand =? 2)%nat then
    Ok (g, Some (errorsNew "Can only double on a hand with 2 cards"))
  else
    let g := set_playerBet (wrap64 (playerBet g * 2)) g in
    let* '(g, _) := MoveHit g in
    MoveStand g.

(** ** Strategies (ai.go) *)

(** [type AI interface].  An implementation may keep private state of type
    [S] (the card counter does); each method receives the state and
    returns the new one.  A method may panic. *)
Class AI (S : Type) : Type := {
  Bet : bool -> S -> result (Z * S);
  Play : list Card -> Card -> S -> result (Move * S);
  Results : list (list Card) -> list Card -> S -> result S
}.

(** The dealer's policy, [dealerAI.Play]. *)
Definition dealerAI_Play (hand : list Card) (dealer : Card) : Move :=
  let dScore := Score hand in
  if (dScore <=? 16) || ((dScore =? 17) && Soft hand) then MoveHit
  else MoveStand.

Global Instance dealerAI : AI unit := {
  Bet _ s := Ok (1, s);
  Play hand dealer s := Ok (dealerAI_Play hand dealer, s);
  Results _ _ s := Ok s
}.

(** ** A round (game.go) *)

(** What the driver does to the strategies during a round, in order.
    The trace is an observation added to the model: the program keeps no
    such record. *)
Inductive event : Type :=
| EvBet (shuffled : bool)
| EvPlay (idx : nat) (hand : list Card)
| EvDealerPlay (hand : list Card)
| EvResults.

(** [settle] is the body of the [for ... range g.player] of [endRound] up
    to the update of the balance: the winnings of one hand. *)
Definition settle (g : Game) (dScore : Z) (dBlackjack : bool) (h : hand) : Z :=
  let cards := cards h in
  let pScore := Score cards in
  let pBlackjack := Blackjack cards in
  let winnings := bet h in
  if pBlackjack && dBlackjack then 0
  else if dBlackjack || (pScore >? 21) then wrap64 (- winnings)
  else if pBlackjack then
    Float64.to_int (Float64.mul (Float64.of_int winnings) (blackjackPayout g))
  else if (dScore >? 21) || (pScore >? dScore) then winnings
  else if dScore =? pScore then 0
  else wrap64 (- winnings).

Section Round.

Context {S : Type} {ai : AI S}.

(** The driver's view: the game, the player's strategy and the trace. *)
Record World : Type := mkWorld {
  game : Game;
  strat : S;
  trace : list event
}.

(** The function [bet] of game.go; the name [bet] is the field of
    [hand]. *)
Definition placeBet (w : World) (shuffled : bool) : result World :=
  let* '(amount, s) := Bet shuffled (strat w) in
  let tr := trace w ++ [EvBet shuffled] in
  if amount <? 100 then Panic "Bet must be at least 100"
  else Ok (mkWorld (set_playerBet amount (game w)) s tr).

(** The loop of [deal]: [n] times a card to the player and a card to
    the dealer. *)
Fixpoint dealLoop (n : nat) (playerHand dealerHand deck : list Card)
  : result (list Card * list Card * list Card) :=
  match n with
  | O => Ok (playerHand, dealerHand, deck)
  | Datatypes.S n' =>
      let* '(card, deck) := draw deck in
      let playerHand := playerHand ++ [card] in
      let* '(card, deck) := draw deck in
      let dealerHand := dealerHand ++ [card] in
      dealLoop n' playerHand dealerHand deck
  end.

Definition deal (g : Game) : result Game :=
  let g := set_handIdx 0%nat g in
  let* '(playerHand, dealerHand, deck) := dealLoop 2 [] [] (deck g) in
  let g := set_deck deck (set_dealer dealerHand g) in
  let g := set_player [mkHand playerHand (playerBet g)] g in
  Ok (set_state statePlayerTurn g).

Definition endRound (w : World) : result World :=
  let g := game w in
  let dScore := Score (dealer g) in
  let dBlackjack := Blackjack (dealer g) in
  let balance :=
    fold_left (fun balance h => wrap64 (balance + settle g dScore dBlackjack h))
              (player g) (balance g) in
  let allHands := map cards (player g) in
  let* s := Results allHands (dealer g) (strat w) in
  let g := set_dealer [] (set_player [] (set_balance balance g)) in
  Ok (mkWorld g s (trace w ++ [EvResults])).

(** The first element of the dealer's hand, [g.dealer[0]]. *)
Definition dealerCard (g : Game) : result Card :=
  match dealer g with
  | c :: _ => Ok c
  | [] => Panic index_out_of_range
  end.

(** One iteration of the player's loop of [Play]. *)
Definition playerIter (w : World) : result World :=
  let g := game w in
  let* hand := currentHand g in
  let* up := dealerCard g in
  let* '(move, s) := Play hand up (strat w) in
  let tr := trace w ++ [EvPlay (handIdx g) hand] in
  let* '(g, err) := move g in
  match err with
  | Some errBust =>
      let* '(g, _) := MoveStand g in
      Ok (mkWorld g s tr)
  | None => Ok (mkWorld g s tr)
  | Some (errorsNew msg) => Panic msg
  end.

(** One iteration of the dealer's loop. *)
Definition dealerIter (w : World) : result World :=
  let g := game w in
  let hand := dealer g in
  let* up := dealerCard g in
  let move := dealerAI_Play hand up in
  let tr := trace w ++ [EvDealerPlay hand] in
  let* '(g, _) := move g in
  Ok (mkWorld g (strat w) tr).

Fixpoint playerLoop (fuel : nat) (w : World) : result World :=
  if state (game w) =? statePlayerTurn then
    match fuel with
    | O => Timeout
    | Datatypes.S fuel' => let* w := playerIter w in playerLoop fuel' w
    end
  else Ok w.

Fixpoint dealerLoop (fuel : nat) (w : World) : result World :=
  if state (game w) =? stateDealerTurn then
    match fuel with
    | O => Timeout
    | Datatypes.S fuel' => let* w := dealerIter w in dealerLoop fuel' w
    end
  else Ok w.

(** The body of the [for i := 0; i < g.nHands; i++] of [Play], after the
    shoe has been replenished if it had to be: [shuffled] tells whether
    it was. *)
Definition playRound (fuel : nat) (shuffled : bool) (w : World) : result World :=
  let* w := placeBet w shuffled in
  let* g := deal (game w) in
  let w := mkWorld g (strat w) (trace w) in
  if Blackjack (dealer g) then endRound w
  else
    let* w := playerLoop fuel w in
    let* w := dealerLoop fuel w in
    endRound w.

End Round.

Arguments World S : clear implicits.

(** ** The driver, [Game.Play] *)

Section Driver.

Context {S : Type} {ai : AI S}.

(** Modelled from the spec: package [deck] is not among the sources.
    [deck.New(deck.Deck(n), deck.Shuffle)] builds a shuffled sequence of
    [n] standard 52-card decks; [newShoe n i] is the sequence it returns
    when round [i] asks for it. *)
Variable newShoe : Z -> nat -> list Card.

(** The rounds [i], [i+1], ... of the loop of [Play]; [todo] is the
    number of rounds left. *)
Fixpoint rounds (fuel : nat) (minCards : Z) (todo i : nat) (w : World S)
  : result (World S) :=
  match todo with
  | O => Ok w
  | Datatypes.S todo' =>
      let g := game w in
      let reshuffle := Z.of_nat (length (deck g)) <? minCards in
      let g := if reshuffle then set_deck (newShoe (nDecks g) i) g else g in
      let* w := playRound fuel reshuffle (mkWorld g (strat w) (trace w)) in
      rounds fuel minCards todo' (Datatypes.S i) w
  end.

Definition GamePlay (fuel : nat) (g : Game) (s : S) : result (Z * World S) :=
  let g := set_deck [] g in
  let minCards := Z.quot (wrap64 (52 * nDecks g)) 3 in
  let* w := rounds fuel minCards (Z.to_nat (nHands g)) 0 (mkWorld g s []) in
  Ok (balance (game w), w).

End Driver.

(** ** The card-counting strategy (main.go) *)

Definition divide_by_zero : string := "runtime error: integer divide by zero".

(** Go's [/] on [int]: truncated division; a zero divisor panics. *)
Definition div64 (a b : Z) : result Z :=
  if b =? 0 then Panic divide_by_zero else Ok (wrap64 (Z.quot a b)).

Record basicAI : Type := mkBasicAI {
  score : Z;
  seen : Z;
  decks : Z
}.

Definition basicAI_Bet (shuffled : bool) (bi : basicAI) : result (Z * basicAI) :=
  let bi := if shuffled then mkBasicAI 0 0 (decks bi) else bi in
  let* remaining := div64 (wrap64 (wrap64 (decks bi * 52) - seen bi)) 52 in
  let* trueScore := div64 (score bi) remaining in
  if trueScore >=? 14 then Ok (100000, bi)
  else if trueScore >=? 8 then Ok (5000, bi)
  else Ok (100, bi).

Definition basicAI_Play (hand : list Card) (dealer : Card) : Move :=
  let score := Score hand in
  let pair :=
    match hand with
    | [c0; c1] =>
        if decide (c0 = c1) then
          let cardScore := Score [c0] in
          (cardScore >=? 8) && negb (cardScore =? 10)
        else false
    | _ => false
    end in
  if pair then MoveSplit
  else if (length hand =? 2)%nat
          && ((score =? 10) || ((score =? 11) && negb (Soft hand)))
  then MoveDouble
  else
    let dScore := Score [dealer] in
    if (dScore >=? 5) && (dScore <=? 6) then MoveStand
    else if score <? 13 then MoveHit
    else MoveStand.

Definition count (bi : basicAI) (card : Card) : basicAI :=
  let s := Score [card] in
  let bi := if s >=? 10 then mkBasicAI (wrap64 (score bi - 1)) (seen bi) (decks bi)
            else if s <=? 6 then mkBasicAI (wrap64 (score bi + 1)) (seen bi) (decks bi)
            else bi in
  mkBasicAI (score bi) (wrap64 (seen bi + 1)) (decks bi).

Definition basicAI_Results (hands : list (list Card)) (dealer : list Card)
    (bi : basicAI) : basicAI :=
  let bi := fold_left count dealer bi in
  fold_left (fun bi hand => fold_left count hand bi) hands bi.

Global Instance basicAI_AI : AI basicAI := {
  Bet := basicAI_Bet;
  Play hand dealer bi := Ok (basicAI_Play hand dealer, bi);
  Results hands dealer bi := Ok (basicAI_Results hands dealer bi)
}.

(** * Vocabulary of the properties *)

(** The definitions in which the properties are stated, and the concrete
    games on which they are tried. *)

(** ** Scoring *)

(** What a card is worth at least: its rank capped at 10, so a face card
    counts 10 and an Ace counts 1. *)
Definition cardValue (c : Card) : Z := Z.min (Z.of_N (Rank c)) 10.

Fixpoint rankSum (hand : list Card) : Z :=
  match hand with
  | [] => 0
  | c :: hand' => cardValue c + rankSum hand'
  end.

Definition containsAce (hand : list Card) : Prop :=
  exists c, c ∈ hand /\ Rank c = Ace.

(** A hand whose minimal score cannot overflow an [int]: fewer than
    2^63 / 10 cards, which holds of every slice that fits in memory. *)
Definition fits (hand : list Card) : Prop :=
  10 * Z.of_nat (length hand) <= max_int.

(** ** The game after a move *)

Definition no_turn : string := "It isn't currently any players' turn".

(** The game has an active hand: it is the player's turn with a valid
    index, or the dealer's turn. *)
Definition activeHand (g : Game) (hand : list Card) : Prop :=
  (state g = statePlayerTurn /\
   exists h, player g !! handIdx g = Some h /\ cards h = hand) \/
  (state g = stateDealerTurn /\ dealer g = hand).

(** The game after a hit that drew [c] into the active hand [hand]. *)
Definition afterHit (g : Game) (hand : list Card) (c : Card) (rest : list Card) : Game :=
  set_currentHand (hand ++ [c]) (set_deck rest g).

Definition bustSignal (hand : list Card) : option error :=
  if Score hand >? 21 then Some errBust else None.

(** The game after a stand in the player's turn. *)
Definition afterStand (g : Game) : Game :=
  let g1 := set_handIdx (S (handIdx g)) g in
  if (length (player g) <=? S (handIdx g))%nat
  then set_state stateDealerTurn g1 else g1.

(** The hand list after the active hand [h], holding [c0] and [c1], was
    split: [h] keeps [c0], and a hand holding [c1] with the bet of [h] is
    added at the end of the list. *)
Definition afterSplit (g : Game) (h : hand) (c0 c1 : Card) : Game :=
  set_player (<[handIdx g := mkHand [c0] (bet h)]> (player g)
              ++ [mkHand [c1] (bet h)]) g.

(** The claim C3 as the specification words it: after the split the new
    hand, holding the second card, is the one right after the current
    hand. *)
Definition split_places_new_hand_next (g : Game) : Prop :=
  forall h c0 c1,
    state g = statePlayerTurn -> player g !! handIdx g = Some h ->
    cards h = [c0; c1] -> Rank c0 = Rank c1 ->
    exists g', MoveSplit g = Ok (g', None) /\
      player g' !! handIdx g = Some (mkHand [c0] (bet h)) /\
      player g' !! S (handIdx g) = Some (mkHand [c1] (bet h)).

(** The four moves of the package. *)
Definition packageMove (m : Move) : Prop :=
  m = MoveHit \/ m = MoveSplit \/ m = MoveDouble \/ m = MoveStand.

(** ** Settlement *)


Definition sumZ (l : list Z) : Z := foldr Z.add 0 l.





(** The outcomes of the hands of the round, in the order of the hands. *)
Definition outcomes (g : Game) : list Z :=
  map (settle g (Score (dealer g)) (Blackjack (dealer g))) (player g).

(** ** The counters of the counting strategy *)

(** The counters [Bet] works with: reset when the shoe was shuffled. *)
Definition counted (shuffled : bool) (bi : basicAI) : basicAI :=
  if shuffled then mkBasicAI 0 0 (decks bi) else bi.

(** [bi.decks*52 - bi.seen], as the program computes it. *)
Definition cardsLeft (bi : basicAI) : Z :=
  wrap64 (wrap64 (decks bi * 52) - seen bi).

(** The claim C9 as the specification words it: [Bet] panics whenever
    [decks*52 - seen] is less than 52. *)
Definition Bet_panics_below_52 : Prop :=
  forall shuffled bi,
    decks (counted shuffled bi) * 52 - seen (counted shuffled bi) < 52 ->
    basicAI_Bet shuffled bi = Panic divide_by_zero.

(** ** The round state *)

(** The index of the active hand is valid if it is the player's turn. *)
Definition indexValid (g : Game) : Prop :=
  state g = statePlayerTurn -> (handIdx g < length (player g))%nat.

(** The invariant of a round in play. *)
Definition inPlayInv (g : Game) : Prop :=
  (state g = statePlayerTurn \/ state g = stateDealerTurn \/ state g = stateHandOver)
  /\ indexValid g.

(** From [g] to [g'] the round state stays or advances by one. *)
Definition advances (g g' : Game) : Prop :=
  state g <= state g' <= state g + 1.

(** ** Loops and rounds *)

Section Vocabulary.

Context {S : Type} {ai : AI S}.

(** The contract of [Play]: the move it returns is one of the four moves
    of the package. *)
Definition fourMoves : Prop :=
  forall hand up s m s', Play hand up s = Ok (m, s') -> packageMove m.

(** One iteration of the player's loop, taken because it is the player's
    turn. *)
Definition playerStep (w w' : World S) : Prop :=
  state (game w) = statePlayerTurn /\ playerIter w = Ok w'.

(** One iteration of the player's loop or of the dealer's loop. *)
Inductive roundStep : World S -> World S -> Prop :=
| step_player (w w' : World S) :
    state (game w) = statePlayerTurn -> playerIter w = Ok w' -> roundStep w w'
| step_dealer (w w' : World S) :
    state (game w) = stateDealerTurn -> dealerIter w = Ok w' -> roundStep w w'.

(** The worlds of a round from the deal to the end of the two loops. *)
Inductive inPlay (shuffled : bool) (w0 : World S) : World S -> Prop :=
| ip_dealt (w1 : World S) (g : Game) :
    placeBet w0 shuffled = Ok w1 -> deal (game w1) = Ok g ->
    inPlay shuffled w0 (mkWorld g (strat w1) (trace w1))
| ip_step (w w' : World S) :
    inPlay shuffled w0 w -> roundStep w w' -> inPlay shuffled w0 w'.

(** The states of the game during a round: after the bet, in play, and
    when the round has been settled. *)
Inductive duringRound (shuffled : bool) (w0 : World S) : Game -> Prop :=
| dr_bet (w1 : World S) :
    placeBet w0 shuffled = Ok w1 -> duringRound shuffled w0 (game w1)
| dr_play (w : World S) :
    inPlay shuffled w0 w -> duringRound shuffled w0 (game w)
| dr_end (fuel : nat) (w' : World S) :
    playRound fuel shuffled w0 = Ok w' -> duringRound shuffled w0 (game w').

End Vocabulary.

(** ** Concrete games *)

Definition card (r : N) : Card := mkCard Spade r.

Definition over_game : Game :=
  mkGame 3 100 one_and_a_half [] stateHandOver [] 0%nat 0 0 [].

(** A round in which the counting strategy doubles: the player is dealt
    5 and 6 against the dealer's 10 and 7, doubles, and draws a 10. *)
Definition double_shoe : list Card :=
  [mkCard Spade Five; mkCard Heart Ten; mkCard Diamond Six; mkCard Club Seven;
   mkCard Spade Ten; mkCard Club Two].

Definition double_world : World basicAI :=
  mkWorld (set_deck double_shoe (New (mkOptions 0 0 Float64.zero)))
          (mkBasicAI 0 0 3) [].

Definition double_dealt : Game :=
  mkGame 3 100 one_and_a_half [mkCard Spade Ten; mkCard Club Two] statePlayerTurn
         [mkHand [mkCard Spade Five; mkCard Diamond Six] 100] 0%nat 100 0
         [mkCard Heart Ten; mkCard Club Seven].

Definition double_done : Game :=
  mkGame 3 100 one_and_a_half [mkCard Club Two] stateDealerTurn
         [mkHand [mkCard Spade Five; mkCard Diamond Six; mkCard Spade Ten] 100]
         1%nat 200 0 [mkCard Heart Ten; mkCard Club Seven].

(** The player was dealt two eights, split them, and drew a third eight
    on the first hand: two hands, the first one active and holding a
    pair again. *)
Definition split_again_game : Game :=
  mkGame 3 100 one_and_a_half [mkCard Club Two] statePlayerTurn
         [mkHand [mkCard Spade Eight; mkCard Diamond Eight] 100;
          mkHand [mkCard Heart Eight] 100]
         0%nat 100 0 [mkCard Heart Ten; mkCard Club Seven].

Definition split_shoe : list Card :=
  [mkCard Spade Eight; mkCard Heart Ten; mkCard Heart Eight; mkCard Club Seven;
   mkCard Diamond Eight; mkCard Club Two].

Definition split_dealt : Game :=
  mkGame 3 100 one_and_a_half [mkCard Diamond Eight; mkCard Club Two]
         statePlayerTurn
         [mkHand [mkCard Spade Eight; mkCard Heart Eight] 100]
         0%nat 100 0 [mkCard Heart Ten; mkCard Club Seven].

Definition split_once : Game :=
  mkGame 3 100 one_and_a_half [mkCard Diamond Eight; mkCard Club Two]
         statePlayerTurn
         [mkHand [mkCard Spade Eight] 100; mkHand [mkCard Heart Eight] 100]
         0%nat 100 0 [mkCard Heart Ten; mkCard Club Seven].

(** The counting strategy hits on 12 against a 10 and draws a 10. *)
Definition bust_world : World basicAI :=
  mkWorld
    (mkGame 3 100 one_and_a_half [mkCard Diamond Ten; mkCard Club Two]
            statePlayerTurn
            [mkHand [mkCard Spade Ten; mkCard Diamond Two] 100]
            0%nat 100 0 [mkCard Heart Ten; mkCard Club Seven])
    (mkBasicAI 0 0 3) [EvBet true].

(** The player holds a blackjack against the dealer's 17, with a bet of
    100 and the default payout. *)
Definition blackjack_world : World basicAI :=
  mkWorld
    (mkGame 3 100 one_and_a_half [mkCard Club Two] stateHandOver
            [mkHand [mkCard Spade Ace; mkCard Diamond King] 100]
            1%nat 100 0 [mkCard Heart Ten; mkCard Club Seven])
    (mkBasicAI 0 0 3) [].

(** The first round of a session: the dealer is dealt an Ace and a King,
    the player 10 and 7. *)
Definition dealer_blackjack_shoe : list Card :=
  [mkCard Spade Ten; mkCard Heart Ace; mkCard Diamond Seven; mkCard Club King;
   mkCard Club Two].

Definition dealer_blackjack_world : World basicAI :=
  mkWorld (set_deck dealer_blackjack_shoe (New (mkOptions 0 0 Float64.zero)))
          (mkBasicAI 0 0 3) [].

(** One deck, unshuffled order: the Ace to the King of each suit. *)
Definition ranks : list N :=
  [Ace; Two; Three; Four; Five; Six; Seven; Eight; Nine; Ten; Jack; Queen; King].

Definition oneDeck : list Card :=
  flat_map (fun s => map (mkCard s) ranks) [Spade; Diamond; Club; Heart].

(** A session with one deck, started by a counter told that one deck is
    in play. *)
Definition one_deck_world : World basicAI :=
  mkWorld (set_deck oneDeck (New (mkOptions 1 2 Float64.zero)))
          (mkBasicAI 0 0 1) [].

Definition after_first_round : World basicAI :=
  mkWorld
    (mkGame 1 2 one_and_a_half (drop 6 oneDeck) stateHandOver [] 1%nat 100 (-100) [])
    (mkBasicAI 4 6 1)
    [EvBet true; EvPlay 0 [mkCard Spade Ace; mkCard Spade Three];
     EvDealerPlay [mkCard Spade Two; mkCard Spade Four];
     EvDealerPlay [mkCard Spade Two; mkCard Spade Four; mkCard Spade Five];
     EvDealerPlay [mkCard Spade Two; mkCard Spade Four; mkCard Spade Five;
                   mkCard Spade Six];
     EvResults].

Definition double_bet_placed : World basicAI :=
  mkWorld (set_playerBet 100 (game double_world)) (mkBasicAI 0 0 3) [EvBet true].

(** The game after the round of [dealer_blackjack_world]. *)
Definition dealer_blackjack_end : World basicAI :=
  mkWorld
    (mkGame 3 100 one_and_a_half [mkCard Club Two] statePlayerTurn [] 0%nat
            100 (-100) [])
    (mkBasicAI (-3) 4 3) [EvBet true; EvResults].

(** ** Cards and bets on the table *)

(** Every card of the game: the cards of the hands of the player, the
    dealer's, and the shoe. *)
Definition allCards (g : Game) : list Card :=
  concat (map cards (player g)) ++ dealer g ++ deck g.

(** The dealer's policy stands on the hand: 17 or more, and not a soft
    17. *)
Definition dealerStands (hand : list Card) : Prop :=
  17 <= Score hand /\ (Score hand = 17 -> Soft hand = false).

Definition isDealerPlay (ev : event) : Prop :=
  match ev with EvDealerPlay _ => True | _ => False end.

Definition isPlay (ev : event) : Prop :=
  match ev with EvPlay _ _ => True | _ => False end.

(** ** A measure for the player's loop *)

(** The hands that are still to be played, the active one first. *)
Definition pending (g : Game) : list hand := drop (handIdx g) (player g).

(** The number of hands of exactly two cards, the only ones that can be
    split. *)
Fixpoint pairs (l : list hand) : nat :=
  match l with
  | [] => O
  | h :: l' => ((if (length (cards h) =? 2)%nat then 1 else 0) + pairs l')%nat
  end.

(** Every iteration of the player's loop lowers this number: a hit takes
    a card from the shoe, a split un-pairs the active hand, a stand leaves
    one hand less to play. *)
Definition potential (g : Game) : nat :=
  (4 * length (deck g) + 3 * pairs (pending g) + 2 * length (pending g))%nat.

(** The player's turn with a hand to play, or the dealer's turn with every
    hand played. *)
Definition turnInv (g : Game) : Prop :=
  (state g = statePlayerTurn /\ (handIdx g < length (player g))%nat) \/
  (state g = stateDealerTurn /\ handIdx g = length (player g)).

(** What the player's turn leaves alone: the dealer's hand and the
    balance; the shoe only loses cards at its front. *)
Definition playerKeeps (g g' : Game) : Prop :=
  dealer g' = dealer g /\ balance g' = balance g /\
  exists drawn, deck g = drawn ++ deck g'.

Section StrategyReturns.

Context {S : Type} {ai : AI S}.

(** The methods of the strategy return or panic: running out of fuel is
    something that only the loops of the model do. *)
Definition strategyReturns : Prop :=
  (forall shuffled s, Bet shuffled s <> Timeout) /\
  (forall hand up s, Play hand up s <> Timeout) /\
  (forall hands dealer s, Results hands dealer s <> Timeout).

End StrategyReturns.

(** ** More concrete games *)

(** The dealer's turn with 2 and 4 in hand and 5, 6, 7 on the shoe: the
    dealer draws to 11, then to 17, and stands. *)
Definition dealer_turn_world : World basicAI :=
  mkWorld
    (mkGame 3 100 one_and_a_half
            [mkCard Spade Five; mkCard Spade Six; mkCard Spade Seven]
            stateDealerTurn
            [mkHand [mkCard Heart Ten; mkCard Heart Nine] 100]
            1%nat 100 0 [mkCard Spade Two; mkCard Spade Four])
    (mkBasicAI 0 0 3) [].

Definition dealer_turn_done : World basicAI :=
  mkWorld
    (mkGame 3 100 one_and_a_half [mkCard Spade Seven] stateHandOver
            [mkHand [mkCard Heart Ten; mkCard Heart Nine] 100]
            1%nat 100 0
            [mkCard Spade Two; mkCard Spade Four; mkCard Spade Five;
             mkCard Spade Six])
    (mkBasicAI 0 0 3)
    [EvDealerPlay [mkCard Spade Two; mkCard Spade Four];
     EvDealerPlay [mkCard Spade Two; mkCard Spade Four; mkCard Spade Five];
     EvDealerPlay [mkCard Spade Two; mkCard Spade Four; mkCard Spade Five;
                   mkCard Spade Six]].

(** ** The calls a session makes to the strategy *)

(** The trace of [n] rounds: in every round the bet, then the moves of
    the player and of the dealer, then the results. *)
Inductive roundsTrace : nat -> list event -> Prop :=
| rt_done : roundsTrace 0 []
| rt_round (n : nat) (shuffled : bool) (tr rest : list event) :
    Forall (fun ev => isPlay ev \/ isDealerPlay ev) tr ->
    roundsTrace n rest ->
    roundsTrace (Datatypes.S n) ([EvBet shuffled] ++ tr ++ [EvResults] ++ rest).

(** ** Card counting *)

(** The Hi-Lo tag of a card: +1 for a card below seven, -1 for a ten, a
    face or an ace, 0 for seven, eight and nine. *)
Definition hiLo (c : Card) : Z :=
  if (Rank c =? Ace)%N || (Ten <=? Rank c)%N then -1
  else if (Rank c <=? Six)%N then 1
  else 0.

(** The counters after the cards [shown] have been counted. *)
Definition tallied (bi : basicAI) (shown : list Card) : basicAI :=
  mkBasicAI (wrap64 (score bi + sumZ (map hiLo shown)))
            (wrap64 (seen bi + Z.of_nat (length shown)))
            (decks bi).

(** The number of cards under which [Play] takes a new shoe, for [n]
    decks. *)
Definition minCards (n : Z) : Z := Z.quot (wrap64 (52 * n)) 3.

(** Between two rounds of a session with [n] decks: the counters agree
    with the game on the number of decks, and unless the next round
    starts with a new shoe, the cards seen are the cards missing from
    the shoe. *)
Definition shoeCounted (n : Z) (w : World basicAI) : Prop :=
  nDecks (game w) = n /\ decks (strat w) = n /\
  in_range (score (strat w)) /\ in_range (seen (strat w)) /\
  Z.of_nat (length (deck (game w))) <= 52 * n /\
  (Z.of_nat (length (deck (game w))) < minCards n \/
   seen (strat w) = 52 * n - Z.of_nat (length (deck (game w)))).

(** A shoe of three decks. *)
Definition threeDecks : list Card := oneDeck ++ oneDeck ++ oneDeck.

(** * Properties *)

(** ** Machine integers and the result monad *)

Lemma wrap64_range z : in_range (wrap64 z).
Proof.
  unfold in_range, wrap64, min_int, max_int.
  pose proof (Z.mod_pos_bound (z + 2 ^ 63) (2 ^ 64) ltac:(lia)). lia.
Qed.

Lemma wrap64_id z : in_range z -> wrap64 z = z.
Proof.
  unfold in_range, wrap64, min_int, max_int. intros Hz.
  rewrite Z.mod_small by lia. lia.
Qed.

Lemma wrap64_idem z : wrap64 (wrap64 z) = wrap64 z.
Proof. apply wrap64_id, wrap64_range. Qed.

(** Addition under [wrap64] only depends on the wrapped summands. *)
Lemma wrap64_add_l a b : wrap64 (wrap64 a + b) = wrap64 (a + b).
Proof.
  unfold wrap64.
  replace ((a + 2 ^ 63) mod 2 ^ 64 - 2 ^ 63 + b + 2 ^ 63)
    with ((a + 2 ^ 63) mod 2 ^ 64 + b) by lia.
  rewrite Zplus_mod_idemp_l. f_equal. f_equal. lia.
Qed.

Lemma wrap64_add_r a b : wrap64 (a + wrap64 b) = wrap64 (a + b).
Proof. rewrite (Z.add_comm a), wrap64_add_l. f_equal. lia. Qed.

Lemma bind_Ok {A B} (m : result A) (k : A -> result B) b :
  bind m k = Ok b -> exists a, m = Ok a /\ k a = Ok b.
Proof. destruct m; simpl; intros H; try discriminate; eauto. Qed.

(** ** Sanity checks of the embedding *)

Example Score_soft : Score [card Ace; card Six] = 17.
Proof. reflexivity. Qed.

Example Score_hard : Score [card Ace; card Six; card King] = 17.
Proof. reflexivity. Qed.

Example Score_two_aces : Score [card Ace; card Ace] = 12.
Proof. reflexivity. Qed.

Example Blackjack_ace_king : Blackjack [card Ace; card King] = true.
Proof. reflexivity. Qed.

Example Blackjack_three_cards : Blackjack [card Seven; card Seven; card Seven] = false.
Proof. reflexivity. Qed.

Example payout_150 :
  Float64.to_int (Float64.mul (Float64.of_int 100) one_and_a_half) = 150.
Proof. vm_compute. reflexivity. Qed.

Example payout_truncates :
  Float64.to_int (Float64.mul (Float64.of_int 125) one_and_a_half) = 187.
Proof. vm_compute. reflexivity. Qed.

(** ** Scoring *)

Lemma min_is_Zmin a b : min a b = Z.min a b.
Proof. unfold min. destruct (Z.ltb_spec a b); lia. Qed.

Lemma cardValue_bounds c : 0 <= cardValue c <= 10.
Proof. unfold cardValue. lia. Qed.

Lemma rankSum_bounds hand : 0 <= rankSum hand <= 10 * Z.of_nat (length hand).
Proof.
  induction hand as [|c hand IH]; simpl length; simpl rankSum.
  - lia.
  - pose proof (cardValue_bounds c). lia.
Qed.

Lemma minScore_fold_sum hand : forall acc,
  0 <= acc ->
  acc + 10 * Z.of_nat (length hand) <= max_int ->
  fold_left (fun score c => wrap64 (score + min (Z.of_N (Rank c)) 10)) hand acc
  = acc + rankSum hand.
Proof.
  induction hand as [|c hand IH]; intros acc Hacc Hfit; simpl.
  - lia.
  - pose proof (cardValue_bounds c) as Hc.
    simpl length in Hfit. rewrite min_is_Zmin. fold (cardValue c).
    rewrite wrap64_id by (unfold in_range, min_int, max_int in *; lia).
    rewrite IH by lia. lia.
Qed.

Lemma minScore_sum hand : fits hand -> minScore hand = rankSum hand.
Proof.
  intros Hfit. unfold minScore.
  rewrite minScore_fold_sum; unfold fits in Hfit; lia.
Qed.

Lemma minScore_range hand : in_range (minScore hand).
Proof.
  unfold minScore. destruct hand as [|c hand] using rev_ind.
  - simpl. unfold in_range, min_int, max_int. lia.
  - rewrite fold_left_app. simpl. apply wrap64_range.
Qed.

Lemma hasAce_containsAce hand : hasAce hand = true <-> containsAce hand.
Proof.
  unfold containsAce. induction hand as [|c hand IH]; simpl.
  - split; [discriminate|]. intros (c & Hc & _). inversion Hc.
  - destruct (N.eqb_spec (Rank c) Ace) as [Heq|Hne].
    + split; [|reflexivity]. intros _. exists c. split; [left|assumption].
    + rewrite IH. split.
      * intros (c' & Hin & Hr). exists c'. split; [right; assumption|assumption].
      * intros (c' & Hin & Hr). inversion Hin; subst; [contradiction|eauto].
Qed.

(** [Score] by cases, with the addition written without wrap-around. *)
Lemma Score_cases hand :
  Score hand =
  if (minScore hand >? 11) || negb (hasAce hand) then minScore hand
  else minScore hand + 10.
Proof.
  unfold Score. pose proof (minScore_range hand) as Hr.
  destruct (Z.gtb_spec (minScore hand) 11); simpl; [reflexivity|].
  destruct (hasAce hand); simpl; [|reflexivity].
  apply wrap64_id. unfold in_range, min_int, max_int in *. lia.
Qed.

(** A hand is soft exactly when it holds an Ace that is counted as 11. *)
Lemma Soft_iff hand :
  Soft hand = true <->
  hasAce hand = true /\ minScore hand <= 11 /\ Score hand = minScore hand + 10.
Proof.
  unfold Soft. rewrite Score_cases.
  destruct (Z.gtb_spec (minScore hand) 11); simpl.
  - rewrite Z.eqb_refl. simpl. split; [discriminate|lia].
  - destruct (hasAce hand); simpl.
    + destruct (Z.eqb_spec (minScore hand) (minScore hand + 10)); simpl; [lia|].
      split; [intros _; repeat split; lia|reflexivity].
    + rewrite Z.eqb_refl. simpl. split; [discriminate|intros [? _]; discriminate].
Qed.

(** C6.  For every hand (short enough for its score not to overflow an
    [int]) [minScore] is the sum of the ranks of its cards, each capped at
    10, an Ace counting 1; [Score] is that sum when it exceeds 11 or the
    hand holds no Ace, and the sum plus 10 otherwise.  The empty hand
    scores 0 and is not a blackjack. *)
Theorem Score_spec (hand : list Card) (Hfit : fits hand) :
  minScore hand = rankSum hand /\
  (forall c, Rank c = Ace -> cardValue c = 1) /\
  (rankSum hand > 11 \/ ~ containsAce hand -> Score hand = rankSum hand) /\
  (~ (rankSum hand > 11 \/ ~ containsAce hand) -> Score hand = rankSum hand + 10) /\
  Score [] = 0 /\ Blackjack [] = false.
Proof.
  pose proof (minScore_sum hand Hfit) as Hsum.
  pose proof (hasAce_containsAce hand) as Hace.
  split; [assumption|]. split.
  { intros c Hc. unfold cardValue. rewrite Hc. reflexivity. }
  rewrite Score_cases, Hsum.
  repeat split; try reflexivity.
  - intros [Hgt|Hno].
    + destruct (Z.gtb_spec (rankSum hand) 11); [reflexivity|lia].
    + destruct (hasAce hand); [exfalso; apply Hno, Hace; reflexivity|].
      rewrite orb_true_r. reflexivity.
  - intros Hn.
    destruct (Z.gtb_spec (rankSum hand) 11); [exfalso; apply Hn; left; lia|].
    destruct (hasAce hand) eqn:E; [reflexivity|].
    exfalso. apply Hn. right. intros Hc. apply Hace in Hc. discriminate.
Qed.

Lemma Score_spec_witness :
  fits [card Ace; card King] /\
  Score [card Ace; card King] = rankSum [card Ace; card King] + 10.
Proof.
  assert (Hfit : fits [card Ace; card King])
    by (unfold fits, max_int; simpl; lia).
  split; [exact Hfit|].
  apply (Score_spec [card Ace; card King] Hfit).
  intros [H|H]; [simpl in H; unfold cardValue in H; simpl in H; lia|].
  apply H. exists (card Ace). split; [left|reflexivity].
Defined.

(** ** The dealer's policy *)

Lemma MoveHit_neq_MoveStand : MoveHit <> MoveStand.
Proof.
  intros Heq. assert (H : MoveHit over_game = MoveStand over_game) by (rewrite Heq; reflexivity).
  discriminate H.
Qed.

(** C7.  The dealer's policy returns [MoveHit] exactly when the score of
    the hand is at most 16, or is 17 and the hand is soft (it holds an Ace
    that is counted as 11); in every other case it returns [MoveStand]. *)
Theorem dealerAI_Play_spec (hand : list Card) (up : Card) :
  (dealerAI_Play hand up = MoveHit <->
     Score hand <= 16 \/ (Score hand = 17 /\ Soft hand = true)) /\
  (dealerAI_Play hand up = MoveStand <->
     ~ (Score hand <= 16 \/ (Score hand = 17 /\ Soft hand = true))) /\
  (Soft hand = true <->
     hasAce hand = true /\ minScore hand <= 11 /\ Score hand = minScore hand + 10).
Proof.
  split; [|split; [|apply Soft_iff]]; unfold dealerAI_Play;
    destruct (Z.leb_spec (Score hand) 16) as [Hle|Hgt]; simpl.
  - split; [intros _; left; assumption|reflexivity].
  - destruct (Z.eqb_spec (Score hand) 17) as [H17|H17]; simpl.
    + destruct (Soft hand); split; intros H; try reflexivity.
      * right. split; [assumption|reflexivity].
      * symmetry in H. destruct (MoveHit_neq_MoveStand H).
      * destruct H as [H|[_ H]]; [lia|discriminate].
    + split; intros H.
      * symmetry in H. destruct (MoveHit_neq_MoveStand H).
      * lia.
  - split; [intros H; destruct (MoveHit_neq_MoveStand H)|intros H; exfalso; apply H; left; assumption].
  - destruct (Z.eqb_spec (Score hand) 17) as [H17|H17]; simpl.
    + destruct (Soft hand); split; intros H; try reflexivity.
      * destruct (MoveHit_neq_MoveStand H).
      * exfalso. apply H. right. split; [assumption|reflexivity].
      * intros [H'|[_ H']]; [lia|discriminate].
    + split; [intros _; lia|reflexivity].
Qed.

(** ** Moves outside a turn *)

Lemma currentHand_over g :
  state g = stateHandOver -> currentHand g = Panic no_turn.
Proof. intros H. unfold currentHand. rewrite H. reflexivity. Qed.

(** C10.  When the round is over, [MoveHit], [MoveDouble] and [MoveSplit]
    panic in [currentHand]; [MoveStand] returns the error "Invalid state"
    and leaves the game as it is. *)
Theorem moves_when_round_over (g : Game) (Hover : state g = stateHandOver) :
  MoveHit g = Panic no_turn /\
  MoveDouble g = Panic no_turn /\
  MoveSplit g = Panic no_turn /\
  MoveStand g = Ok (g, Some (errorsNew "Invalid state")).
Proof.
  unfold MoveHit, MoveDouble, MoveSplit, MoveStand.
  rewrite (currentHand_over g Hover), Hover. repeat split.
Qed.

Lemma moves_when_round_over_witness :
  state over_game = stateHandOver /\
  MoveHit over_game = Panic no_turn /\
  MoveStand over_game = Ok (over_game, Some (errorsNew "Invalid state")).
Proof.
  split; [reflexivity|].
  pose proof (moves_when_round_over over_game eq_refl) as (Hhit & _ & _ & Hstand).
  split; assumption.
Defined.

(** ** Hit *)

Lemma currentHand_Ok g hand : currentHand g = Ok hand <-> activeHand g hand.
Proof.
  unfold currentHand, activeHand.
  destruct (Z.eqb_spec (state g) statePlayerTurn) as [Hp|Hp].
  - destruct (player g !! handIdx g) as [h|]; split.
    + intros [= <-]. left. eauto.
    + intros [(_ & h' & [= <-] & Hc)|(Hd & _)]; [congruence|].
      rewrite Hp in Hd. discriminate.
    + discriminate.
    + intros [(_ & h' & Hh & _)|(Hd & _)]; [discriminate|].
      rewrite Hp in Hd. discriminate.
  - destruct (Z.eqb_spec (state g) stateDealerTurn) as [Hd|Hd]; split.
    + intros [= <-]. right. auto.
    + intros [(Hp' & _)|(_ & <-)]; [contradiction|reflexivity].
    + discriminate.
    + intros [(Hp' & _)|(Hd' & _)]; contradiction.
Qed.

Lemma set_currentHand_active g hand cs :
  activeHand g hand -> activeHand (set_currentHand cs g) cs.
Proof.
  unfold activeHand, set_currentHand.
  intros [(Hp & h & Hh & Hc)|(Hd & Hc)].
  - rewrite Hp. simpl. left. split; [assumption|].
    exists (set_cards cs h). split; [|reflexivity].
    rewrite list_lookup_alter_eq, Hh. reflexivity.
  - rewrite Hd. simpl. right. auto.
Qed.

Lemma MoveHit_Ok g hand c rest :
  currentHand g = Ok hand -> deck g = c :: rest ->
  MoveHit g = Ok (afterHit g hand c rest, bustSignal (hand ++ [c])).
Proof.
  intros Hcur Hdeck. unfold MoveHit, afterHit, bustSignal.
  rewrite Hcur, Hdeck. simpl.
  destruct (Score (hand ++ [c]) >? 21); reflexivity.
Qed.

Lemma MoveHit_inv g g' e :
  MoveHit g = Ok (g', e) ->
  exists hand c rest,
    currentHand g = Ok hand /\ deck g = c :: rest /\
    g' = afterHit g hand c rest /\ e = bustSignal (hand ++ [c]).
Proof.
  intros H. unfold MoveHit in H.
  destruct (currentHand g) as [hand| |] eqn:Hcur; simpl in H; try discriminate.
  destruct (deck g) as [|c rest] eqn:Hdeck; simpl in H; try discriminate.
  exists hand, c, rest. unfold afterHit, bustSignal.
  destruct (Score (hand ++ [c]) >? 21); injection H as <- <-; auto.
Qed.

Lemma map_bet_alter cs i (l : list hand) :
  map bet (alter (set_cards cs) i l) = map bet l.
Proof.
  revert i. induction l as [|h l IH]; intros [|i]; simpl; try reflexivity.
  f_equal. apply IH.
Qed.

Lemma afterHit_fields g hand c rest :
  let g' := afterHit g hand c rest in
  deck g' = rest /\ state g' = state g /\ handIdx g' = handIdx g /\
  playerBet g' = playerBet g /\ balance g' = balance g /\
  length (player g') = length (player g) /\
  map bet (player g') = map bet (player g) /\
  (state g = statePlayerTurn -> dealer g' = dealer g).
Proof.
  unfold afterHit, set_currentHand. simpl.
  destruct (Z.eqb_spec (state g) statePlayerTurn) as [Hp|Hp]; simpl;
    repeat split; try reflexivity; try contradiction.
  - apply length_alter.
  - apply map_bet_alter.
Qed.

(** ** Stand *)

Lemma MoveStand_player g :
  state g = statePlayerTurn -> MoveStand g = Ok (afterStand g, None).
Proof.
  intros Hp. unfold MoveStand, afterStand. rewrite Hp. simpl.
  destruct (length (player g) <=? S (handIdx g))%nat; [rewrite Hp|]; reflexivity.
Qed.

Lemma MoveStand_dealer g :
  state g = stateDealerTurn -> MoveStand g = Ok (set_state stateHandOver g, None).
Proof. intros Hd. unfold MoveStand. rewrite Hd. reflexivity. Qed.

Lemma afterStand_fields g :
  let g' := afterStand g in
  handIdx g' = S (handIdx g) /\ player g' = player g /\ deck g' = deck g /\
  dealer g' = dealer g /\ balance g' = balance g /\ playerBet g' = playerBet g /\
  (state g' = stateDealerTurn /\ (length (player g) <= S (handIdx g))%nat \/
   state g' = state g /\ (S (handIdx g) < length (player g))%nat).
Proof.
  unfold afterStand. simpl.
  destruct (Nat.leb_spec (length (player g)) (S (handIdx g))); simpl;
    repeat split; auto.
Qed.

(** ** Double *)

Lemma MoveDouble_Ok g hand c rest :
  state g = statePlayerTurn ->
  currentHand g = Ok hand -> length hand = 2%nat -> deck g = c :: rest ->
  MoveDouble g =
  Ok (afterStand (afterHit (set_playerBet (wrap64 (playerBet g * 2)) g) hand c rest),
      None).
Proof.
  intros Hp Hcur Hlen Hdeck. unfold MoveDouble.
  rewrite Hcur. cbn [bind]. rewrite Hlen. cbn [Nat.eqb negb].
  rewrite (MoveHit_Ok _ hand c rest) by assumption. cbn [bind].
  apply MoveStand_player.
  destruct (afterHit_fields (set_playerBet (wrap64 (playerBet g * 2)) g) hand c rest)
    as (_ & Hs & _). rewrite Hs. exact Hp.
Qed.

Lemma MoveDouble_refused g hand :
  currentHand g = Ok hand -> length hand <> 2%nat ->
  MoveDouble g = Ok (g, Some (errorsNew "Can only double on a hand with 2 cards")).
Proof.
  intros Hcur Hlen. unfold MoveDouble. rewrite Hcur. simpl.
  destruct (Nat.eqb_spec (length hand) 2); [contradiction|reflexivity].
Qed.

(** [MoveDouble] never changes the bet of a hand: the amount it doubles
    is the field [playerBet] of the game, which [endRound] does not
    read. *)
Lemma MoveDouble_hand_bets g g' e :
  state g = statePlayerTurn ->
  MoveDouble g = Ok (g', e) -> map bet (player g') = map bet (player g).
Proof.
  intros Hp H. unfold MoveDouble in H.
  destruct (currentHand g) as [hand| |] eqn:Hcur; simpl in H; try discriminate.
  destruct (length hand =? 2)%nat; simpl in H; [|injection H as <- _; reflexivity].
  apply bind_Ok in H as ([g1 e1] & Hhit & Hstand).
  apply MoveHit_inv in Hhit as (hand1 & c & rest & _ & _ & -> & _).
  match type of Hstand with MoveStand ?x = _ => set (g2 := x) in * end.
  destruct (afterHit_fields (set_playerBet (wrap64 (playerBet g * 2)) g) hand1 c rest)
    as (_ & Hs & _ & _ & _ & _ & Hb & _).
  fold g2 in Hs, Hb. simpl in Hs, Hb.
  rewrite MoveStand_player in Hstand by (rewrite Hs; exact Hp).
  injection Hstand as <- _.
  destruct (afterStand_fields g2) as (_ & -> & _). exact Hb.
Qed.

(** C1.  On a hand of two cards [MoveDouble] draws one card and stands,
    but the bet of the hand is not doubled.  The player bets 100, is dealt
    5 and 6, doubles (the move the counting strategy chooses), draws a 10
    and beats the dealer's 17: the hand still carries 100, the amount that
    was doubled is the game's [playerBet], and the round pays 100 where a
    doubled bet pays 200. *)
Theorem MoveDouble_keeps_hand_bet :
  deal (set_playerBet 100 (game double_world)) = Ok double_dealt /\
  basicAI_Play [mkCard Spade Five; mkCard Diamond Six] (mkCard Heart Ten)
    = MoveDouble /\
  MoveDouble double_dealt = Ok (double_done, None) /\
  map bet (player double_dealt) = [100] /\
  map bet (player double_done) = [100] /\
  playerBet double_done = 200 /\
  exists w', playRound 2 true double_world = Ok w' /\ balance (game w') = 100.
Proof.
  split; [vm_compute; reflexivity|].
  split; [reflexivity|].
  split; [vm_compute; reflexivity|].
  split; [reflexivity|].
  split; [reflexivity|].
  split; [reflexivity|].
  eexists. split; [vm_compute; reflexivity|reflexivity].
Qed.

(** ** Split *)

Lemma alter_set_cards_app (l : list hand) i h cs x :
  l !! i = Some h ->
  alter (set_cards cs) i (l ++ [x]) = <[i := mkHand cs (bet h)]> l ++ [x].
Proof.
  intros Hi. rewrite alter_app_l by (eapply lookup_lt_Some; eassumption).
  f_equal. rewrite list_insert_alter.
  apply list_alter_ext; [|reflexivity].
  intros h' Hh'. unfold set_cards. congruence.
Qed.

Lemma MoveSplit_Ok g h c0 c1 :
  state g = statePlayerTurn -> player g !! handIdx g = Some h ->
  cards h = [c0; c1] -> Rank c0 = Rank c1 ->
  MoveSplit g = Ok (afterSplit g h c0 c1, None).
Proof.
  intros Hp Hh Hc Hr. unfold MoveSplit, currentHand, afterSplit.
  rewrite Hp, Hh, Hc. cbn [Z.eqb statePlayerTurn bind length Nat.eqb negb].
  rewrite Hr, N.eqb_refl. cbn [negb take]. unfold set_player at 1. cbn.
  rewrite (alter_set_cards_app _ _ h) by assumption. reflexivity.
Qed.

Lemma MoveSplit_refused g h :
  state g = statePlayerTurn -> player g !! handIdx g = Some h ->
  ~ (exists c0 c1, cards h = [c0; c1] /\ Rank c0 = Rank c1) ->
  exists msg, MoveSplit g = Ok (g, Some (errorsNew msg)).
Proof.
  intros Hp Hh Hno. unfold MoveSplit, currentHand.
  rewrite Hp, Hh. cbn [Z.eqb statePlayerTurn bind].
  destruct (cards h) as [|c0 [|c1 [|c2 cs]]] eqn:Hc; cbn [length Nat.eqb negb];
    try (eexists; reflexivity).
  destruct (N.eqb_spec (Rank c0) (Rank c1)) as [Heq|Hne]; cbn [negb].
  - exfalso. apply Hno. eauto.
  - eexists; reflexivity.
Qed.

(** C3 (amended).  In the player's turn, splitting an active hand of two
    cards of equal rank succeeds: the hand keeps its first card, a new
    hand holding the second card is added at the end of the hand list,
    both carry the bet of the original hand and nothing else changes.  The
    new hand comes right after the current one exactly when the current
    hand is the last of the list.  On any other active hand [MoveSplit]
    returns an error and leaves the game as it was. *)
Theorem MoveSplit_spec (g : Game) (h : hand)
    (Hturn : state g = statePlayerTurn)
    (Hactive : player g !! handIdx g = Some h) :
  (forall c0 c1, cards h = [c0; c1] -> Rank c0 = Rank c1 ->
     let g' := afterSplit g h c0 c1 in
     MoveSplit g = Ok (g', None) /\
     length (player g') = S (length (player g)) /\
     player g' !! handIdx g = Some (mkHand [c0] (bet h)) /\
     player g' !! length (player g) = Some (mkHand [c1] (bet h)) /\
     (forall j, j <> handIdx g -> (j < length (player g))%nat ->
        player g' !! j = player g !! j) /\
     (player g' !! S (handIdx g) = Some (mkHand [c1] (bet h)) <->
        S (handIdx g) = length (player g) \/
        player g !! S (handIdx g) = Some (mkHand [c1] (bet h))) /\
     set_player (player g) g' = g) /\
  (~ (exists c0 c1, cards h = [c0; c1] /\ Rank c0 = Rank c1) ->
   exists msg, MoveSplit g = Ok (g, Some (errorsNew msg))).
Proof.
  pose proof (lookup_lt_Some _ _ _ Hactive) as Hlt.
  split; [|apply MoveSplit_refused; assumption].
  intros c0 c1 Hc Hr g'.
  assert (Hlen : length (<[handIdx g := mkHand [c0] (bet h)]> (player g))
                 = length (player g)) by apply length_insert.
  split; [apply MoveSplit_Ok; assumption|].
  subst g'. unfold afterSplit. cbn [player set_player].
  split; [rewrite length_app, Hlen; simpl; lia|].
  split; [rewrite lookup_app_l by lia; apply list_lookup_insert_eq; assumption|].
  split; [rewrite lookup_app_r by lia; rewrite Hlen, Nat.sub_diag; reflexivity|].
  split.
  { intros j Hj Hjlt. rewrite lookup_app_l by lia.
    apply list_lookup_insert_ne. congruence. }
  split; [|destruct g; reflexivity].
  destruct (decide (S (handIdx g) = length (player g))) as [Hlast|Hmid].
  - rewrite lookup_app_r by lia. rewrite Hlen, Hlast, Nat.sub_diag. simpl.
    split; auto.
  - rewrite lookup_app_l by lia.
    rewrite list_lookup_insert_ne by lia.
    split; [auto|intros [?|?]; [contradiction|assumption]].
Qed.

(** [split_again_game] is reached in play: deal, split, hit. *)
Example split_again_game_reached :
  deal (set_playerBet 100 (set_deck split_shoe (New (mkOptions 0 0 Float64.zero))))
    = Ok split_dealt /\
  MoveSplit split_dealt = Ok (split_once, None) /\
  MoveHit split_once = Ok (split_again_game, None).
Proof.
  split; [vm_compute; reflexivity|].
  split; [vm_compute; reflexivity|].
  vm_compute; reflexivity.
Qed.

Lemma MoveSplit_spec_witness :
  MoveSplit split_again_game
  = Ok (afterSplit split_again_game
          (mkHand [mkCard Spade Eight; mkCard Diamond Eight] 100)
          (mkCard Spade Eight) (mkCard Diamond Eight), None).
Proof.
  apply (MoveSplit_spec split_again_game
           (mkHand [mkCard Spade Eight; mkCard Diamond Eight] 100)
           eq_refl eq_refl);
    reflexivity.
Defined.

(** C3 (counterexample).  With a second hand already on the table, the
    hand right after the current one is the old second hand (the eight of
    hearts), not the new hand (the eight of diamonds), which comes
    last. *)
Lemma MoveSplit_new_hand_not_next : ~ split_places_new_hand_next split_again_game.
Proof.
  intros H.
  destruct (H (mkHand [mkCard Spade Eight; mkCard Diamond Eight] 100)
              (mkCard Spade Eight) (mkCard Diamond Eight)
              eq_refl eq_refl eq_refl eq_refl) as (g' & Hs & _ & Hnext).
  vm_compute in Hs. injection Hs as <-. vm_compute in Hnext. discriminate Hnext.
Qed.

(** ** The player's loop *)

Lemma MoveHit_handIdx g g' e :
  MoveHit g = Ok (g', e) -> handIdx g' = handIdx g /\ state g' = state g.
Proof.
  intros H. apply MoveHit_inv in H as (hand & c & rest & _ & _ & -> & _).
  destruct (afterHit_fields g hand c rest) as (_ & Hs & Hi & _). auto.
Qed.

Lemma MoveStand_handIdx g g' e :
  MoveStand g = Ok (g', e) -> (handIdx g <= handIdx g')%nat.
Proof.
  unfold MoveStand. intros H.
  destruct (state g =? stateDealerTurn); [injection H as <- _; simpl; lia|].
  destruct (state g =? statePlayerTurn); [|injection H as <- _; lia].
  cbn [player handIdx set_handIdx] in H.
  destruct (length (player g) <=? S (handIdx g))%nat;
    injection H as <- _; simpl; lia.
Qed.

Lemma MoveSplit_handIdx g g' e :
  MoveSplit g = Ok (g', e) -> handIdx g' = handIdx g.
Proof.
  unfold MoveSplit. intros H.
  destruct (currentHand g) as [cs| |]; cbn [bind] in H; try discriminate.
  destruct (negb (length cs =? 2)%nat); [injection H as <- _; reflexivity|].
  destruct cs as [|c0 [|c1 cs]]; try discriminate.
  destruct (negb (Rank c0 =? Rank c1)%N); [injection H as <- _; reflexivity|].
  destruct (player g !! handIdx g); [|discriminate].
  injection H as <- _. reflexivity.
Qed.

Lemma MoveDouble_handIdx g g' e :
  MoveDouble g = Ok (g', e) -> (handIdx g <= handIdx g')%nat.
Proof.
  unfold MoveDouble. intros H.
  destruct (currentHand g) as [cs| |]; cbn [bind] in H; try discriminate.
  destruct (negb (length cs =? 2)%nat); [injection H as <- _; lia|].
  apply bind_Ok in H as ([g1 e1] & Hhit & Hstand).
  apply MoveHit_handIdx in Hhit as [Hi _]. apply MoveStand_handIdx in Hstand.
  simpl in Hi. lia.
Qed.

Lemma packageMove_handIdx m g g' e :
  packageMove m -> m g = Ok (g', e) -> (handIdx g <= handIdx g')%nat.
Proof.
  intros [-> | [-> | [-> | ->]]] H.
  - apply MoveHit_handIdx in H as [-> _]. lia.
  - apply MoveSplit_handIdx in H as ->. lia.
  - eapply MoveDouble_handIdx; eassumption.
  - eapply MoveStand_handIdx; eassumption.
Qed.

Section PlayerLoop.

Context {S : Type} {ai : AI S}.

Lemma playerIter_trace w w' :
  fourMoves -> playerIter w = Ok w' ->
  exists hand,
    trace w' = trace w ++ [EvPlay (handIdx (game w)) hand] /\
    (handIdx (game w) <= handIdx (game w'))%nat.
Proof.
  intros Hfour H. unfold playerIter in H.
  apply bind_Ok in H as (hand & _ & H).
  apply bind_Ok in H as (up & _ & H).
  apply bind_Ok in H as ([m s] & Hplay & H).
  apply bind_Ok in H as ([g1 e] & Hmove & H).
  pose proof (packageMove_handIdx _ _ _ _ (Hfour _ _ _ _ _ Hplay) Hmove) as Hle.
  exists hand. destruct e as [[|msg]|].
  - apply bind_Ok in H as ([g2 e2] & Hstand & H). injection H as <-.
    apply MoveStand_handIdx in Hstand. simpl. split; [reflexivity|lia].
  - discriminate.
  - injection H as <-. simpl. split; [reflexivity|lia].
Qed.

Lemma playerSteps_trace w w' :
  fourMoves -> rtc playerStep w w' ->
  exists tr,
    trace w' = trace w ++ tr /\
    (handIdx (game w) <= handIdx (game w'))%nat /\
    forall j hand, EvPlay j hand ∈ tr -> (handIdx (game w) <= j)%nat.
Proof.
  intros Hfour Hsteps. induction Hsteps as [w|w w1 w2 [_ Hiter] _ IH].
  - exists []. rewrite app_nil_r. split; [reflexivity|]. split; [lia|].
    intros j hand Hin. inversion Hin.
  - destruct (playerIter_trace w w1 Hfour Hiter) as (hand & Htr & Hle).
    destruct IH as (tr & Htr2 & Hle2 & Hin).
    exists (EvPlay (handIdx (game w)) hand :: tr).
    split; [rewrite Htr2, Htr, <- app_assoc; reflexivity|].
    split; [lia|].
    intros j hand' Hj. inversion Hj; subst; [lia|].
    specialize (Hin j hand' ltac:(assumption)). lia.
Qed.

End PlayerLoop.

Lemma bustSignal_iff hand :
  bustSignal hand = Some errBust <-> Score hand > 21.
Proof.
  unfold bustSignal. destruct (Z.gtb_spec (Score hand) 21); split;
    try reflexivity; try discriminate; lia.
Qed.

Section Bust.

Context {S : Type} {ai : AI S}.

(** C4.  [MoveHit] takes the first card of the shoe into the active hand
    and changes nothing else; it returns [errBust] exactly when the score
    of the hand with the new card exceeds 21; whenever it returns, that is
    what it did.  When the move chosen in the player's loop is a hit that
    busts, the iteration applies [MoveStand]: the game moves on to the
    next hand or to the dealer's turn, and in the rest of the loop [Play]
    is never called for the busted hand again. *)
Theorem MoveHit_bust_stands :
  (forall g hand c rest,
     currentHand g = Ok hand -> deck g = c :: rest ->
     let g' := afterHit g hand c rest in
     MoveHit g = Ok (g', bustSignal (hand ++ [c])) /\
     currentHand g' = Ok (hand ++ [c]) /\ deck g' = rest /\
     state g' = state g /\ handIdx g' = handIdx g /\
     map bet (player g') = map bet (player g) /\
     (bustSignal (hand ++ [c]) = Some errBust <-> Score (hand ++ [c]) > 21) /\
     (bustSignal (hand ++ [c]) = None <-> Score (hand ++ [c]) <= 21)) /\
  (forall g g' e,
     MoveHit g = Ok (g', e) ->
     exists hand c rest,
       currentHand g = Ok hand /\ deck g = c :: rest /\
       g' = afterHit g hand c rest /\ e = bustSignal (hand ++ [c])) /\
  (fourMoves ->
   forall (w : World S) hand up c rest s',
     state (game w) = statePlayerTurn ->
     currentHand (game w) = Ok hand ->
     dealerCard (game w) = Ok up ->
     deck (game w) = c :: rest ->
     Play hand up (strat w) = Ok (MoveHit, s') ->
     Score (hand ++ [c]) > 21 ->
     let g1 := afterHit (game w) hand c rest in
     let w' := mkWorld (afterStand g1) s'
                       (trace w ++ [EvPlay (handIdx (game w)) hand]) in
     MoveHit (game w) = Ok (g1, Some errBust) /\
     MoveStand g1 = Ok (afterStand g1, None) /\
     playerIter w = Ok w' /\
     handIdx (game w') = Datatypes.S (handIdx (game w)) /\
     (state (game w') = stateDealerTurn /\
      (length (player (game w)) <= Datatypes.S (handIdx (game w)))%nat \/
      state (game w') = statePlayerTurn /\
      (Datatypes.S (handIdx (game w)) < length (player (game w)))%nat) /\
     forall w'', rtc playerStep w' w'' ->
       exists tr, trace w'' = trace w' ++ tr /\
         forall j hand', EvPlay j hand' ∈ tr -> (handIdx (game w) < j)%nat).
Proof.
  split; [|split].
  - intros g hand c rest Hcur Hdeck g'.
    destruct (afterHit_fields g hand c rest) as (Hd & Hs & Hi & _ & _ & _ & Hb & _).
    split; [apply MoveHit_Ok; assumption|].
    split.
    { apply currentHand_Ok. apply set_currentHand_active with (hand := hand).
      apply currentHand_Ok. exact Hcur. }
    repeat (split; [assumption|]).
    split; [apply bustSignal_iff|].
    unfold bustSignal. destruct (Z.gtb_spec (Score (hand ++ [c])) 21); split;
      try reflexivity; try discriminate; lia.
  - apply MoveHit_inv.
  - intros Hfour w hand up c rest s' Hp Hcur Hup Hdeck Hplay Hbust g1 w'.
    assert (Hsig : bustSignal (hand ++ [c]) = Some errBust)
      by (apply bustSignal_iff; exact Hbust).
    assert (Hhit : MoveHit (game w) = Ok (g1, Some errBust))
      by (rewrite <- Hsig; apply MoveHit_Ok; assumption).
    destruct (afterHit_fields (game w) hand c rest)
      as (_ & Hs & Hi & _ & _ & Hl & _).
    fold g1 in Hs, Hi, Hl.
    assert (Hstand : MoveStand g1 = Ok (afterStand g1, None))
      by (apply MoveStand_player; rewrite Hs; exact Hp).
    destruct (afterStand_fields g1) as (Hi' & _ & _ & _ & _ & _ & Hst).
    assert (Hiter : playerIter w = Ok w').
    { unfold playerIter. rewrite Hcur. cbn [bind]. rewrite Hup. cbn [bind].
      rewrite Hplay. cbn [bind]. rewrite Hhit. cbn [bind].
      rewrite Hstand. reflexivity. }
    repeat (split; [assumption|]).
    split; [simpl; rewrite Hi', Hi; reflexivity|].
    split.
    { simpl. rewrite Hl, Hi in Hst.
      destruct Hst as [[Hd Hlen]|[Hsame Hlen]]; [left; split; assumption|].
      right. rewrite Hsame, Hs. split; assumption. }
    intros w'' Hsteps.
    destruct (playerSteps_trace w' w'' Hfour Hsteps) as (tr & Htr & _ & Hin).
    exists tr. split; [exact Htr|].
    intros j hand' Hj. specialize (Hin j hand' Hj).
    simpl in Hin. rewrite Hi', Hi in Hin. lia.
Qed.

End Bust.

Lemma basicAI_Play_packageMove hand up : packageMove (basicAI_Play hand up).
Proof.
  unfold basicAI_Play, packageMove.
  repeat match goal with
         | |- context [if ?b then _ else _] => destruct b
         end; auto.
Qed.

Lemma basicAI_fourMoves : fourMoves (ai := basicAI_AI).
Proof.
  intros hand up s m s' H. simpl in H. injection H as <- _.
  apply basicAI_Play_packageMove.
Qed.

Lemma dealerAI_fourMoves : fourMoves (ai := dealerAI).
Proof.
  intros hand up s m s' H. simpl in H. injection H as <- _.
  unfold dealerAI_Play, packageMove.
  destruct (_ || _); auto.
Qed.

Lemma MoveHit_bust_stands_witness :
  playerIter bust_world
  = Ok (mkWorld
          (afterStand (afterHit (game bust_world)
                         [mkCard Spade Ten; mkCard Diamond Two]
                         (mkCard Diamond Ten) [mkCard Club Two]))
          (mkBasicAI 0 0 3)
          [EvBet true; EvPlay 0 [mkCard Spade Ten; mkCard Diamond Two]]).
Proof.
  apply (proj2 (proj2 (MoveHit_bust_stands (ai := basicAI_AI))) basicAI_fourMoves
           bust_world [mkCard Spade Ten; mkCard Diamond Two] (mkCard Heart Ten)
           (mkCard Diamond Ten) [mkCard Club Two] (mkBasicAI 0 0 3)
           eq_refl eq_refl eq_refl eq_refl eq_refl eq_refl).
Defined.

(** ** Settlement *)

Lemma wrap64_opp amount :
  min_int < amount <= max_int -> wrap64 (- amount) = - amount.
Proof.
  intros H. apply wrap64_id. unfold in_range, min_int, max_int in *. lia.
Qed.



(** ** The float64 product *)
















Section Settlement.

Context {S : Type} {ai : AI S}.


End Settlement.

(** [Float64.trunc] rounds toward zero: the result has the sign of the
    float and its magnitude is the integer part of the magnitude
    [m * 2 ^ e] of the float. *)
Lemma trunc_toward_zero s m e :
  let t := Float64.trunc s m e in
  (if s then t <= 0 else 0 <= t) /\
  (0 <= e -> Z.abs t = Z.pos m * 2 ^ e) /\
  (e < 0 -> Z.abs t * 2 ^ (- e) <= Z.pos m < (Z.abs t + 1) * 2 ^ (- e)).
Proof.
  unfold Float64.trunc. cbv zeta.
  destruct (Z.leb_spec 0 e) as [He|He].
  - assert (0 < 2 ^ e) by (apply Z.pow_pos_nonneg; lia).
    destruct s; simpl; repeat split; intros; nia.
  - assert (Hp : 0 < 2 ^ (- e)) by (apply Z.pow_pos_nonneg; lia).
    rewrite Z.quot_div_nonneg by lia.
    pose proof (Z.div_pos (Z.pos m) (2 ^ (- e)) ltac:(lia) Hp) as Hq.
    pose proof (Z.mul_div_le (Z.pos m) (2 ^ (- e)) Hp) as Hle.
    pose proof (Z.mul_succ_div_gt (Z.pos m) (2 ^ (- e)) Hp) as Hgt.
    destruct s; simpl; repeat split; intros; try lia;
      rewrite ?Z.abs_opp, Z.abs_eq by lia; nia.
Qed.

Example blackjack_pays_150 : outcomes (game blackjack_world) = [150].
Proof. vm_compute. reflexivity. Qed.



(** ** A round that starts with a dealer blackjack *)

Section DealerBlackjack.

Context {S : Type} {ai : AI S}.

Lemma deal_four g c1 c2 c3 c4 rest :
  deck g = c1 :: c2 :: c3 :: c4 :: rest ->
  deal g =
  Ok (set_state statePlayerTurn
        (set_player [mkHand [c1; c3] (playerBet g)]
           (set_deck rest (set_dealer [c2; c4] (set_handIdx 0%nat g))))).
Proof. intros Hdeck. unfold deal. cbn [deck set_handIdx]. rewrite Hdeck. reflexivity. Qed.

(** C5.  When the two cards dealt to the dealer are a blackjack, the round
    is the bet, the deal and the settlement: no iteration of the player's
    or of the dealer's loop runs (whatever the fuel), so [Play] is called
    on neither strategy, and the hand of the player is settled against the
    blackjack.  With a bet of 100 and a player hand that is not a
    blackjack the balance changes by exactly -100. *)
Theorem dealer_blackjack_settles (w : World S) (shuffled : bool)
    (amount : Z) (s1 s2 : S) (c1 c2 c3 c4 : Card) (rest : list Card)
    (Hbet : Bet shuffled (strat w) = Ok (amount, s1))
    (Hmin : 100 <= amount <= max_int)
    (Hshoe : deck (game w) = c1 :: c2 :: c3 :: c4 :: rest)
    (Hdealer : Blackjack [c2; c4] = true)
    (Hresults : Results [[c1; c3]] [c2; c4] s1 = Ok s2) :
  forall fuel, exists w',
    playRound fuel shuffled w = Ok w' /\
    trace w' = trace w ++ [EvBet shuffled; EvResults] /\
    strat w' = s2 /\ deck (game w') = rest /\
    player (game w') = [] /\ dealer (game w') = [] /\
    balance (game w')
    = wrap64 (balance (game w) + (if Blackjack [c1; c3] then 0 else - amount)) /\
    (amount = 100 -> Blackjack [c1; c3] = false ->
     in_range (balance (game w) - 100) ->
     balance (game w') - balance (game w) = - 100).
Proof.
  intros fuel. unfold playRound, placeBet. rewrite Hbet. cbn [bind].
  destruct (Z.ltb_spec amount 100) as [Hlt|_]; [lia|]. cbn [bind game strat trace].
  rewrite (deal_four _ c1 c2 c3 c4 rest) by exact Hshoe. cbn [bind].
  cbn [dealer set_state set_player set_deck set_dealer set_handIdx].
  rewrite Hdealer. unfold endRound.
  cbn [game strat trace player dealer balance playerBet
       set_state set_player set_deck set_dealer set_handIdx set_playerBet
       map cards fold_left].
  rewrite Hresults. cbn [bind]. eexists. split; [reflexivity|].
  cbn [game strat trace player dealer balance deck
       set_state set_player set_deck set_dealer set_handIdx set_playerBet set_balance].
  split; [rewrite <- app_assoc; reflexivity|].
  do 4 (split; [reflexivity|]).
  assert (Hsettle :
    settle (set_state statePlayerTurn
              (set_player [mkHand [c1; c3] amount]
                 (set_deck rest (set_dealer [c2; c4]
                    (set_handIdx 0%nat (set_playerBet amount (game w)))))))
           (Score [c2; c4]) (Blackjack [c2; c4]) (mkHand [c1; c3] amount)
    = if Blackjack [c1; c3] then 0 else - amount).
  { unfold settle. cbn [cards bet]. rewrite Hdealer.
    destruct (Blackjack [c1; c3]); cbn [andb orb]; [reflexivity|].
    apply wrap64_opp. unfold min_int. lia. }
  split.
  - f_equal. f_equal. exact Hsettle.
  - intros -> Hnot Hrange. rewrite Hnot in Hsettle.
    match goal with |- wrap64 (_ + ?x) - _ = _ => replace x with (- 100) end.
    rewrite wrap64_id by exact Hrange. lia.
Qed.

End DealerBlackjack.

Lemma dealer_blackjack_settles_witness :
  exists w',
    playRound 0 true dealer_blackjack_world = Ok w' /\
    trace w' = [EvBet true; EvResults] /\
    balance (game w') - 0 = - 100.
Proof.
  destruct (dealer_blackjack_settles (ai := basicAI_AI)
              dealer_blackjack_world true 100
              (mkBasicAI 0 0 3)
              (basicAI_Results [[mkCard Spade Ten; mkCard Diamond Seven]]
                 [mkCard Heart Ace; mkCard Club King] (mkBasicAI 0 0 3))
              (mkCard Spade Ten) (mkCard Heart Ace) (mkCard Diamond Seven)
              (mkCard Club King) [mkCard Club Two]
              eq_refl ltac:(unfold max_int; lia) eq_refl eq_refl eq_refl 0%nat)
    as (w' & Hround & Htrace & _ & _ & _ & _ & _ & Hdelta).
  exists w'. split; [exact Hround|]. split; [exact Htrace|].
  apply Hdelta; [reflexivity|reflexivity|].
  unfold in_range, min_int, max_int. simpl. lia.
Defined.

(** ** The bet of the counting strategy *)

Lemma quot52_range z : in_range z -> wrap64 (Z.quot z 52) = Z.quot z 52.
Proof.
  intros Hz. apply wrap64_id. unfold in_range, min_int, max_int in *.
  pose proof (Z.quot_rem' z 52) as Hqr.
  pose proof (Z.rem_bound_abs z 52 ltac:(lia)) as Hr. lia.
Qed.

Lemma quot52_zero z : Z.quot z 52 = 0 <-> - 52 < z < 52.
Proof. rewrite Z.quot_small_iff by lia. lia. Qed.

Lemma basicAI_Bet_panics shuffled bi :
  basicAI_Bet shuffled bi = Panic divide_by_zero <->
  - 52 < cardsLeft (counted shuffled bi) < 52.
Proof.
  unfold basicAI_Bet. fold (counted shuffled bi).
  set (bi0 := counted shuffled bi). fold (cardsLeft bi0).
  unfold div64 at 1. cbn [Z.eqb bind].
  rewrite quot52_range by apply wrap64_range.
  rewrite <- quot52_zero. unfold div64.
  destruct (Z.eqb_spec (Z.quot (cardsLeft bi0) 52) 0) as [Hz|Hnz]; cbn [bind].
  - split; auto.
  - split; [|contradiction].
    destruct (_ >=? 14); [discriminate|]. destruct (_ >=? 8); discriminate.
Qed.

(** C9 (amended).  [Bet] panics with a division by zero exactly when
    the number of cards left according to the counters, [decks*52 - seen]
    as the program computes it, is strictly between -52 and 52: whenever
    it is a count of cards (not negative) below 52, and not when it is
    -52 or less.  Such a state is reached in a session of one deck: the
    first round is played with a bet of 100, six cards are seen, the shoe
    of 46 cards is not replenished, and the [Bet] of the second round
    panics; so does the whole run. *)
Theorem basicAI_Bet_divides_by_zero :
  (forall shuffled bi,
     0 <= cardsLeft (counted shuffled bi) < 52 ->
     basicAI_Bet shuffled bi = Panic divide_by_zero) /\
  (forall shuffled bi,
     basicAI_Bet shuffled bi = Panic divide_by_zero <->
     - 52 < cardsLeft (counted shuffled bi) < 52) /\
  (forall bi, in_range (decks bi * 52) -> in_range (decks bi * 52 - seen bi) ->
     cardsLeft bi = decks bi * 52 - seen bi) /\
  playRound 3 true one_deck_world = Ok after_first_round /\
  decks (strat after_first_round) * 52 - seen (strat after_first_round) < 52 /\
  basicAI_Bet false (strat after_first_round) = Panic divide_by_zero /\
  playRound 3 false after_first_round = Panic divide_by_zero /\
  GamePlay (fun _ _ => oneDeck) 3 (New (mkOptions 1 2 Float64.zero)) (mkBasicAI 0 0 1)
  = Panic divide_by_zero.
Proof.
  split; [|split; [|split]].
  - intros shuffled bi H. apply basicAI_Bet_panics. lia.
  - exact basicAI_Bet_panics.
  - intros bi H1 H2. unfold cardsLeft. rewrite (wrap64_id _ H1). apply wrap64_id, H2.
  - split; [vm_compute; reflexivity|].
    split; [vm_compute; reflexivity|].
    split; [vm_compute; reflexivity|].
    split; vm_compute; reflexivity.
Qed.

Lemma basicAI_Bet_divides_by_zero_witness :
  0 <= cardsLeft (counted false (mkBasicAI 4 6 1)) < 52 /\
  basicAI_Bet false (mkBasicAI 4 6 1) = Panic divide_by_zero.
Proof.
  assert (H : 0 <= cardsLeft (counted false (mkBasicAI 4 6 1)) < 52)
    by (vm_compute; split; [discriminate|reflexivity]).
  split; [exact H|].
  exact (proj1 basicAI_Bet_divides_by_zero false (mkBasicAI 4 6 1) H).
Defined.

(** C9 (counterexample).  [Bet] does not panic whenever [decks*52 - seen]
    is less than 52: when more cards have been seen than the decks hold,
    by 52 or more, the quotient is not zero.  With one deck and 104 cards
    seen, [decks*52 - seen] is -52 and [Bet] returns 100. *)
Lemma basicAI_Bet_returns_below_52 : ~ Bet_panics_below_52.
Proof.
  intros H. specialize (H false (mkBasicAI 0 104 1)).
  assert (Hbet : basicAI_Bet false (mkBasicAI 0 104 1) = Ok (100, mkBasicAI 0 104 1))
    by (vm_compute; reflexivity).
  rewrite Hbet in H. discriminate H. simpl. lia.
Qed.

(** ** The round state and the index of the active hand *)

Lemma MoveHit_step g g' e :
  MoveHit g = Ok (g', e) ->
  state g' = state g /\ handIdx g' = handIdx g /\
  length (player g') = length (player g).
Proof.
  intros H. apply MoveHit_inv in H as (hand & c & rest & _ & _ & -> & _).
  destruct (afterHit_fields g hand c rest) as (_ & Hs & Hi & _ & _ & Hl & _). auto.
Qed.

Lemma MoveSplit_step g g' e :
  MoveSplit g = Ok (g', e) ->
  state g' = state g /\ handIdx g' = handIdx g /\
  (length (player g) <= length (player g'))%nat /\ e <> Some errBust.
Proof.
  unfold MoveSplit. intros H.
  destruct (currentHand g) as [cs| |]; cbn [bind] in H; try discriminate.
  destruct (negb (length cs =? 2)%nat);
    [injection H as <- <-; repeat split; (lia || discriminate)|].
  destruct cs as [|c0 [|c1 cs]]; try discriminate.
  destruct (negb (Rank c0 =? Rank c1)%N);
    [injection H as <- <-; repeat split; (lia || discriminate)|].
  destruct (player g !! handIdx g); [|discriminate].
  injection H as <- <-. cbn [state handIdx player set_player].
  rewrite length_alter, length_app. simpl. repeat split; (lia || discriminate).
Qed.

Lemma MoveStand_step g g' e :
  inPlayInv g -> MoveStand g = Ok (g', e) ->
  inPlayInv g' /\ advances g g' /\ e <> Some errBust.
Proof.
  unfold inPlayInv, indexValid, advances, MoveStand.
  unfold statePlayerTurn, stateDealerTurn, stateHandOver.
  intros [Hst Hidx] H.
  destruct (Z.eqb_spec (state g) 1) as [Hd|Hd].
  { injection H as <- <-. rewrite Hd. cbn. repeat split; try lia; try discriminate.
    right; right; reflexivity. }
  destruct (Z.eqb_spec (state g) 0) as [Hp|Hp].
  - cbn [player handIdx set_handIdx state] in H. rewrite Hp in H.
    destruct (Nat.leb_spec (length (player g)) (S (handIdx g)));
      injection H as <- <-; cbn; rewrite ?Hp; repeat split;
      try lia; try discriminate; auto.
  - injection H as <- <-. repeat split; try lia; try discriminate; auto.
Qed.

Lemma MoveDouble_step g g' e :
  inPlayInv g -> MoveDouble g = Ok (g', e) ->
  inPlayInv g' /\ advances g g' /\ e <> Some errBust.
Proof.
  intros Hinv H. unfold MoveDouble in H.
  destruct (currentHand g) as [cs| |]; cbn [bind] in H; try discriminate.
  destruct (negb (length cs =? 2)%nat).
  { injection H as <- <-. unfold advances. repeat split; try apply Hinv; try lia.
    discriminate. }
  apply bind_Ok in H as ([g1 e1] & Hhit & Hstand).
  apply MoveHit_step in Hhit as (Hs & Hi & Hl). cbn in Hs, Hi, Hl.
  assert (Hinv1 : inPlayInv g1).
  { destruct Hinv as [Hst Hidx]. unfold inPlayInv, indexValid.
    rewrite Hs, Hi, Hl. split; assumption. }
  destruct (MoveStand_step g1 g' e Hinv1 Hstand) as (Hinv' & Hadv & He).
  unfold advances in *. rewrite Hs in Hadv. auto.
Qed.

Lemma packageMove_step m g g' e :
  packageMove m -> inPlayInv g -> m g = Ok (g', e) ->
  inPlayInv g' /\ advances g g' /\ (e = Some errBust -> state g' = state g).
Proof.
  intros [-> | [-> | [-> | ->]]] Hinv H.
  - apply MoveHit_step in H as (Hs & Hi & Hl).
    destruct Hinv as [Hst Hidx]. unfold inPlayInv, indexValid, advances.
    rewrite Hs, Hi, Hl. repeat split; auto; lia.
  - apply MoveSplit_step in H as (Hs & Hi & Hl & He).
    destruct Hinv as [Hst Hidx]. unfold inPlayInv, indexValid, advances.
    rewrite Hs, Hi. repeat split; auto; try lia.
    intros Hp. specialize (Hidx Hp). lia.
  - destruct (MoveDouble_step g g' e Hinv H) as (Hinv' & Hadv & He).
    split; [assumption|]. split; [assumption|]. intros; contradiction.
  - destruct (MoveStand_step g g' e Hinv H) as (Hinv' & Hadv & He).
    split; [assumption|]. split; [assumption|]. intros; contradiction.
Qed.

Section RoundStates.

Context {S : Type} {ai : AI S}.

Lemma deal_state g g' :
  deal g = Ok g' ->
  state g' = statePlayerTurn /\ handIdx g' = 0%nat /\ length (player g') = 1%nat.
Proof.
  unfold deal. intros H. apply bind_Ok in H as ([[ph dh] dk] & _ & H).
  injection H as <-. repeat split.
Qed.

Lemma playerIter_step (w w' : World S) :
  fourMoves -> inPlayInv (game w) -> playerIter w = Ok w' ->
  inPlayInv (game w') /\ advances (game w) (game w').
Proof.
  intros Hfour Hinv H. unfold playerIter in H.
  apply bind_Ok in H as (hand & _ & H).
  apply bind_Ok in H as (up & _ & H).
  apply bind_Ok in H as ([m s] & Hplay & H).
  apply bind_Ok in H as ([g1 e] & Hmove & H).
  destruct (packageMove_step m _ g1 e (Hfour _ _ _ _ _ Hplay) Hinv Hmove)
    as (Hinv1 & Hadv & Hbust).
  destruct e as [[|msg]|].
  - apply bind_Ok in H as ([g2 e2] & Hstand & H). injection H as <-.
    destruct (MoveStand_step g1 g2 e2 Hinv1 Hstand) as (Hinv2 & Hadv2 & _).
    cbn [game]. split; [exact Hinv2|].
    unfold advances in *. rewrite (Hbust eq_refl) in Hadv2. exact Hadv2.
  - discriminate.
  - injection H as <-. cbn [game]. auto.
Qed.

Lemma dealerIter_step (w w' : World S) :
  inPlayInv (game w) -> dealerIter w = Ok w' ->
  inPlayInv (game w') /\ advances (game w) (game w').
Proof.
  intros Hinv H. unfold dealerIter in H.
  apply bind_Ok in H as (up & _ & H).
  apply bind_Ok in H as ([g1 e] & Hmove & H). injection H as <-. cbn [game].
  assert (Hpm : packageMove (dealerAI_Play (dealer (game w)) up)).
  { unfold dealerAI_Play, packageMove. destruct (_ || _); auto. }
  destruct (packageMove_step _ _ g1 e Hpm Hinv Hmove) as (Hinv1 & Hadv & _).
  auto.
Qed.

Lemma roundStep_step (w w' : World S) :
  fourMoves -> inPlayInv (game w) -> roundStep w w' ->
  inPlayInv (game w') /\ advances (game w) (game w').
Proof.
  intros Hfour Hinv Hstep. destruct Hstep as [w w' _ Hiter|w w' _ Hiter].
  - exact (playerIter_step w w' Hfour Hinv Hiter).
  - exact (dealerIter_step w w' Hinv Hiter).
Qed.

Lemma inPlay_inv shuffled w0 w :
  fourMoves -> inPlay shuffled w0 w -> inPlayInv (game w).
Proof.
  intros Hfour Hin. induction Hin as [w1 g Hbet Hdeal|w w' _ IH Hstep].
  - apply deal_state in Hdeal as (Hs & Hi & Hl). cbn [game].
    unfold inPlayInv, indexValid. rewrite Hi, Hl. split; [auto|lia].
  - apply (roundStep_step w w' Hfour IH Hstep).
Qed.

(** C8 (amended).  For a strategy that returns the four moves of the
    package: from the deal to the end of the dealer's loop the round
    state is one of the three states and only advances (it never goes
    back), and whenever it is the player's turn the index of the active
    hand is a valid index of the hand list.  Settlement leaves the round
    state as it is and empties the hand list and the dealer's hand, so
    that after a round that a dealer blackjack ended it is still the
    player's turn, with no hand; the next deal sets the state to the
    player's turn with one hand and index 0. *)
Theorem round_state_advances (Hfour : fourMoves) :
  (forall shuffled w0 w,
     inPlay shuffled w0 w ->
     (state (game w) = statePlayerTurn \/ state (game w) = stateDealerTurn \/
      state (game w) = stateHandOver) /\
     indexValid (game w)) /\
  (forall shuffled w0 w w',
     inPlay shuffled w0 w -> rtc roundStep w w' ->
     inPlay shuffled w0 w' /\ state (game w) <= state (game w')) /\
  (forall w w',
     endRound w = Ok w' ->
     state (game w') = state (game w) /\
     player (game w') = [] /\ dealer (game w') = []) /\
  (forall fuel shuffled w w1 g w',
     placeBet w shuffled = Ok w1 -> deal (game w1) = Ok g ->
     Blackjack (dealer g) = true ->
     playRound fuel shuffled w = Ok w' ->
     state (game w') = statePlayerTurn /\ player (game w') = []) /\
  (forall g g',
     deal g = Ok g' ->
     state g' = statePlayerTurn /\ handIdx g' = 0%nat /\
     length (player g') = 1%nat).
Proof.
  assert (Hend : forall w w' : World S,
             endRound w = Ok w' ->
             state (game w') = state (game w) /\
             player (game w') = [] /\ dealer (game w') = []).
  { intros w w' H. unfold endRound in H.
    apply bind_Ok in H as (s & _ & H). injection H as <-. repeat split. }
  split; [|split; [|split; [|split]]].
  - intros shuffled w0 w Hin. apply (inPlay_inv shuffled w0 w Hfour Hin).
  - intros shuffled w0 w w' Hin Hsteps.
    induction Hsteps as [w|w w1 w2 Hstep _ IH]; [split; [assumption|lia]|].
    pose proof (roundStep_step w w1 Hfour (inPlay_inv _ _ _ Hfour Hin) Hstep)
      as [_ Hadv].
    destruct (IH (ip_step _ _ _ _ Hin Hstep)) as [Hin2 Hle].
    split; [assumption|]. unfold advances in Hadv. lia.
  - exact Hend.
  - intros fuel shuffled w w1 g w' Hbet Hdeal Hbj H.
    unfold playRound in H. rewrite Hbet in H. cbn [bind] in H.
    rewrite Hdeal in H. cbn [bind] in H. rewrite Hbj in H.
    destruct (Hend _ _ H) as (Hs & Hp & _). cbn [game] in Hs.
    apply deal_state in Hdeal as (Hs0 & _). split; [congruence|exact Hp].
  - apply deal_state.
Qed.

End RoundStates.

Lemma double_dealt_inPlay :
  inPlay (ai := basicAI_AI) true double_world
         (mkWorld double_dealt (mkBasicAI 0 0 3) [EvBet true]).
Proof.
  exact (ip_dealt (ai := basicAI_AI) true double_world double_bet_placed
           double_dealt eq_refl eq_refl).
Qed.

Lemma round_state_advances_witness :
  fourMoves (ai := basicAI_AI) /\ indexValid double_dealt.
Proof.
  split; [exact basicAI_fourMoves|].
  exact (proj2 (proj1 (round_state_advances (ai := basicAI_AI) basicAI_fourMoves)
                  true double_world _ double_dealt_inPlay)).
Defined.

(** C8 (counterexample).  The index is not valid in every state of a
    round: the round that starts with a dealer blackjack is settled while
    the state is still the player's turn, and settlement empties the hand
    list; the game is then in the player's turn, with index 0 and no
    hand, until the next deal. *)
Lemma index_invalid_after_dealer_blackjack :
  ~ (forall g,
       duringRound (ai := basicAI_AI) true dealer_blackjack_world g ->
       indexValid g).
Proof.
  intros H.
  assert (Hend : playRound 0 true dealer_blackjack_world = Ok dealer_blackjack_end)
    by (vm_compute; reflexivity).
  specialize (H _ (dr_end (ai := basicAI_AI) true dealer_blackjack_world 0
                     dealer_blackjack_end Hend)).
  specialize (H eq_refl). simpl in H. lia.
Qed.

(** * Further properties *)

(** ** Scores and the order of the cards *)

Lemma minScore_fold_wrap hand : forall acc,
  in_range acc ->
  fold_left (fun score c => wrap64 (score + min (Z.of_N (Rank c)) 10)) hand acc
  = wrap64 (acc + rankSum hand).
Proof.
  induction hand as [|c hand IH]; intros acc Hacc; simpl.
  - rewrite Z.add_0_r. symmetry. apply wrap64_id. exact Hacc.
  - rewrite IH by apply wrap64_range. rewrite min_is_Zmin. fold (cardValue c).
    rewrite wrap64_add_l. f_equal. lia.
Qed.

Lemma minScore_wrap hand : minScore hand = wrap64 (rankSum hand).
Proof.
  unfold minScore. rewrite minScore_fold_wrap; [reflexivity|].
  unfold in_range, min_int, max_int. lia.
Qed.

Lemma rankSum_perm hand hand' : hand ≡ₚ hand' -> rankSum hand = rankSum hand'.
Proof. induction 1; simpl; lia. Qed.

Lemma hasAce_perm hand hand' : hand ≡ₚ hand' -> hasAce hand = hasAce hand'.
Proof.
  induction 1 as [|c l l' _ IH|c1 c2 l|l1 l2 l3 _ IH1 _ IH2]; simpl.
  - reflexivity.
  - rewrite IH. reflexivity.
  - destruct (N.eqb (Rank c1) Ace), (N.eqb (Rank c2) Ace); reflexivity.
  - congruence.
Qed.

(** X1.  The scores do not depend on the order of the cards: two hands
    with the same cards have the same minimal score, score, softness and
    blackjack flag. *)
Theorem Score_permutation (hand hand' : list Card) (Hperm : hand ≡ₚ hand') :
  minScore hand = minScore hand' /\ Score hand = Score hand' /\
  Soft hand = Soft hand' /\ Blackjack hand = Blackjack hand'.
Proof.
  assert (Hmin : minScore hand = minScore hand')
    by (rewrite !minScore_wrap, (rankSum_perm _ _ Hperm); reflexivity).
  assert (Hscore : Score hand = Score hand')
    by (unfold Score; rewrite Hmin, (hasAce_perm _ _ Hperm); reflexivity).
  repeat split; try assumption.
  - unfold Soft. rewrite Hmin, Hscore. reflexivity.
  - unfold Blackjack. rewrite Hscore, (Permutation_length Hperm). reflexivity.
Qed.

Lemma Score_permutation_witness :
  Score [card King; card Ace] = Score [card Ace; card King].
Proof.
  apply (Score_permutation [card King; card Ace] [card Ace; card King]).
  apply Permutation_swap.
Defined.

(** X2.  The score is the minimal score or 10 more.  A hand is bust
    exactly when its minimal score exceeds 21: counting an Ace as 11 never
    busts a hand, and a soft hand scores at most 21. *)
Theorem Score_bust_iff (hand : list Card) :
  minScore hand <= Score hand <= minScore hand + 10 /\
  (Score hand > 21 <-> minScore hand > 21) /\
  (Soft hand = true -> Score hand <= 21) /\
  (Score hand <> minScore hand -> Score hand = minScore hand + 10 /\ Soft hand = true).
Proof.
  pose proof (Soft_iff hand) as Hsoft. unfold Soft in *. rewrite Score_cases in *.
  destruct (Z.gtb_spec (minScore hand) 11); simpl in *.
  - rewrite Z.eqb_refl in *. simpl in *. repeat split; try lia; try discriminate.
  - destruct (hasAce hand); simpl in *.
    + destruct (Z.eqb_spec (minScore hand) (minScore hand + 10)); [lia|].
      repeat split; try lia; reflexivity.
    + rewrite Z.eqb_refl in *. repeat split; try lia; discriminate.
Qed.

(** ** Blackjack *)

Lemma minScore_two c1 c2 : minScore [c1; c2] = cardValue c1 + cardValue c2.
Proof.
  rewrite minScore_sum; [simpl; lia|].
  unfold fits, max_int. simpl. lia.
Qed.

(** X3.  A blackjack is an Ace with a card of rank ten or more, in either
    order, and nothing else. *)
Theorem Blackjack_iff (hand : list Card) :
  Blackjack hand = true <->
  exists c1 c2, hand = [c1; c2] /\
    ((Rank c1 = Ace /\ (Ten <= Rank c2)%N) \/
     ((Ten <= Rank c1)%N /\ Rank c2 = Ace)).
Proof.
  unfold Blackjack. split.
  - intros H. apply andb_true_iff in H as [Hlen Hscore].
    apply Nat.eqb_eq in Hlen. apply Z.eqb_eq in Hscore.
    destruct hand as [|c1 [|c2 [|c3 hand]]]; try discriminate.
    exists c1, c2. split; [reflexivity|].
    rewrite Score_cases, minScore_two in Hscore.
    pose proof (cardValue_bounds c1). pose proof (cardValue_bounds c2).
    unfold cardValue, Ace, Ten in *. simpl hasAce in Hscore.
    destruct (Z.gtb_spec (Z.min (Z.of_N (Rank c1)) 10 + Z.min (Z.of_N (Rank c2)) 10) 11);
      simpl in Hscore; [lia|].
    unfold Ace in Hscore.
    destruct (N.eqb_spec (Rank c1) 1) as [Hr1|Hr1]; simpl in Hscore.
    + left. split; [assumption|]. rewrite Hr1 in Hscore. simpl in Hscore. lia.
    + destruct (N.eqb_spec (Rank c2) 1) as [Hr2|Hr2]; simpl in Hscore; [|lia].
      right. split; [|assumption]. rewrite Hr2 in Hscore. simpl in Hscore. lia.
  - intros (c1 & c2 & -> & H). simpl length. rewrite Nat.eqb_refl. simpl andb.
    apply Z.eqb_eq. rewrite Score_cases, minScore_two. simpl hasAce.
    unfold Ace, Ten in *.
    destruct H as [[Hr1 Hr2]|[Hr1 Hr2]].
    + assert (Hv1 : cardValue c1 = 1) by (unfold cardValue; rewrite Hr1; reflexivity).
      assert (Hv2 : cardValue c2 = 10) by (unfold cardValue; lia).
      rewrite Hv1, Hv2, Hr1. reflexivity.
    + assert (Hv1 : cardValue c1 = 10) by (unfold cardValue; lia).
      assert (Hv2 : cardValue c2 = 1) by (unfold cardValue; rewrite Hr2; reflexivity).
      rewrite Hv1, Hv2, Hr2. simpl. destruct (N.eqb (Rank c1) 1); reflexivity.
Qed.

(** ** The deal *)

Lemma deal_cases (g : Game) :
  match deck g with
  | c1 :: c2 :: c3 :: c4 :: rest =>
      deal g = Ok (mkGame (nDecks g) (nHands g) (blackjackPayout g) rest
                          statePlayerTurn [mkHand [c1; c3] (playerBet g)]
                          0%nat (playerBet g) (balance g) [c2; c4])
  | _ => deal g = Panic index_out_of_range
  end.
Proof.
  unfold deal. cbn [deck set_handIdx].
  destruct (deck g) as [|c1 [|c2 [|c3 [|c4 rest]]]]; reflexivity.
Qed.

(** X4.  [deal] returns exactly when the shoe holds at least four cards,
    and panics with an index out of range otherwise.  It takes the first
    four cards off the shoe, the first and third for the player and the
    second and fourth for the dealer; the new hands and the shoe together
    are the cards of the old shoe, whatever [player] and [dealer] held
    before; the one hand carries the bet of the round. *)
Theorem deal_spec (g : Game) :
  ((length (deck g) < 4)%nat -> deal g = Panic index_out_of_range) /\
  ((4 <= length (deck g))%nat ->
   exists c1 c2 c3 c4 rest g',
     deck g = c1 :: c2 :: c3 :: c4 :: rest /\
     deal g = Ok g' /\
     deck g' = rest /\
     player g' = [mkHand [c1; c3] (playerBet g)] /\
     dealer g' = [c2; c4] /\
     state g' = statePlayerTurn /\ handIdx g' = 0%nat /\
     balance g' = balance g /\ playerBet g' = playerBet g /\
     allCards g' ≡ₚ deck g).
Proof.
  pose proof (deal_cases g) as H.
  destruct (deck g) as [|c1 [|c2 [|c3 [|c4 rest]]]]; simpl length;
    (split; [intros; try lia; assumption|intros; try lia]).
  exists c1, c2, c3, c4, rest. eexists. split; [reflexivity|].
  split; [exact H|]. unfold allCards. cbn.
  repeat split; try reflexivity.
  rewrite (Permutation_swap c3 c2). reflexivity.
Qed.

Lemma deal_spec_witness :
  exists g', deal (set_playerBet 100 (game double_world)) = Ok g' /\
             allCards g' ≡ₚ double_shoe.
Proof.
  destruct (proj2 (deal_spec (set_playerBet 100 (game double_world))))
    as (c1 & c2 & c3 & c4 & rest & g' & _ & Hdeal & _ & _ & _ & _ & _ & _ & _ & Hperm).
  - simpl. lia.
  - exists g'. split; assumption.
Defined.

(** ** No card is lost or made *)

Lemma concat_cards_alter (f : hand -> hand) (l : list hand) : forall i h,
  l !! i = Some h ->
  concat (map cards (alter f i l)) ++ cards h
  ≡ₚ concat (map cards l) ++ cards (f h).
Proof.
  induction l as [|h0 l IH]; intros [|i] h Hi; try discriminate; simpl in *.
  - injection Hi as ->. rewrite <- !app_assoc.
    rewrite (Permutation_app_comm (concat (map cards l)) (cards h)).
    rewrite (Permutation_app_comm (concat (map cards l)) (cards (f h))).
    rewrite !app_assoc. rewrite (Permutation_app_comm (cards (f h)) (cards h)).
    reflexivity.
  - rewrite <- !app_assoc. rewrite (IH i h Hi). reflexivity.
Qed.

Lemma MoveHit_conserves g g' e :
  MoveHit g = Ok (g', e) -> allCards g' ≡ₚ allCards g.
Proof.
  intros H. apply MoveHit_inv in H as (hand & c & rest & Hcur & Hdeck & -> & _).
  apply currentHand_Ok in Hcur as [(Hp & h & Hh & Hc)|(Hd & Hc)];
    unfold allCards, afterHit, set_currentHand; cbn [state set_deck].
  - rewrite Hp. cbn. rewrite Hdeck.
    set (f := set_cards (hand ++ [c])).
    pose proof (concat_cards_alter f _ _ _ Hh) as Hperm.
    assert (Hf : cards (f h) ≡ₚ [c] ++ cards h)
      by (subst f; cbn; rewrite Hc; apply Permutation_app_comm).
    rewrite Hf, app_assoc in Hperm.
    apply Permutation_app_inv_r in Hperm. rewrite Hperm.
    rewrite <- !app_assoc. simpl. apply Permutation_app_head, Permutation_middle.
  - rewrite Hd. cbn. rewrite Hdeck, <- Hc, <- !app_assoc. reflexivity.
Qed.

Lemma MoveStand_cards g g' e :
  MoveStand g = Ok (g', e) ->
  player g' = player g /\ dealer g' = dealer g /\ deck g' = deck g /\
  balance g' = balance g /\ playerBet g' = playerBet g.
Proof.
  unfold MoveStand. intros H.
  destruct (state g =? stateDealerTurn); [injection H as <- _; auto|].
  destruct (state g =? statePlayerTurn); [|injection H as <- _; auto].
  cbn [player handIdx set_handIdx] in H.
  destruct (length (player g) <=? S (handIdx g))%nat; injection H as <- _; auto.
Qed.

Lemma MoveStand_conserves g g' e :
  MoveStand g = Ok (g', e) -> allCards g' ≡ₚ allCards g.
Proof.
  intros H. apply MoveStand_cards in H as (Hp & Hd & Hk & _).
  unfold allCards. rewrite Hp, Hd, Hk. reflexivity.
Qed.

(** In the player's turn [MoveSplit] either refuses and changes nothing
    or splits the active hand. *)
Lemma MoveSplit_inv g g' e :
  state g = statePlayerTurn -> MoveSplit g = Ok (g', e) ->
  (g' = g /\ exists msg, e = Some (errorsNew msg)) \/
  (exists h c0 c1,
     player g !! handIdx g = Some h /\ cards h = [c0; c1] /\
     Rank c0 = Rank c1 /\ g' = afterSplit g h c0 c1 /\ e = None).
Proof.
  intros Hp H.
  destruct (player g !! handIdx g) as [h|] eqn:Hh.
  - destruct (cards h) as [|c0 [|c1 [|c2 cs]]] eqn:Hc.
    1,2,4: destruct (MoveSplit_refused g h Hp Hh) as [msg Hmsg];
      [rewrite Hc; intros (x & y & Hxy & _); discriminate|];
      rewrite Hmsg in H; injection H as <- <-; left; eauto.
    destruct (N.eq_dec (Rank c0) (Rank c1)) as [Hr|Hr].
    + rewrite (MoveSplit_Ok g h c0 c1 Hp Hh Hc Hr) in H. injection H as <- <-.
      right. exists h, c0, c1. auto.
    + destruct (MoveSplit_refused g h Hp Hh) as [msg Hmsg];
        [rewrite Hc; intros (x & y & [= <- <-] & Hxy); contradiction|].
      rewrite Hmsg in H. injection H as <- <-. left. eauto.
  - unfold MoveSplit, currentHand in H. rewrite Hp, Hh in H. discriminate.
Qed.

Lemma MoveSplit_conserves g g' e :
  state g = statePlayerTurn -> MoveSplit g = Ok (g', e) ->
  allCards g' ≡ₚ allCards g.
Proof.
  intros Hp H.
  destruct (MoveSplit_inv g g' e Hp H)
    as [[-> _]|(h & c0 & c1 & Hh & Hc & _ & -> & _)]; [reflexivity|].
  unfold allCards, afterSplit. cbn [player dealer deck set_player].
  rewrite map_app, concat_app. cbn. rewrite list_insert_alter.
  pose proof (concat_cards_alter (fun _ => mkHand [c0] (bet h)) _ _ _ Hh) as Hperm.
  cbn [cards] in Hperm. rewrite Hc in Hperm.
  assert (Hsw : [c0; c1] ≡ₚ [c1] ++ [c0]) by apply Permutation_swap.
  rewrite Hsw, app_assoc in Hperm.
  apply Permutation_app_inv_r in Hperm. rewrite Hperm. reflexivity.
Qed.

(** ** What every iteration of the loops preserves *)

Lemma MoveDouble_inv g g' e :
  MoveDouble g = Ok (g', e) ->
  (g' = g /\ exists msg, e = Some (errorsNew msg)) \/
  (exists g1 e1,
     MoveHit (set_playerBet (wrap64 (playerBet g * 2)) g) = Ok (g1, e1) /\
     MoveStand g1 = Ok (g', e)).
Proof.
  unfold MoveDouble. intros H.
  destruct (currentHand g) as [cs| |]; cbn [bind] in H; try discriminate.
  destruct (negb (length cs =? 2)%nat); [injection H as <- <-; left; eauto|].
  apply bind_Ok in H as ([g1 e1] & Hhit & Hstand). right. eauto.
Qed.

Section Preserved.

Context {S : Type} {ai : AI S}.

Variable P : Game -> Prop.
Hypothesis P_hit : forall g g' e, MoveHit g = Ok (g', e) -> P g -> P g'.
Hypothesis P_stand : forall g g' e, MoveStand g = Ok (g', e) -> P g -> P g'.
Hypothesis P_split :
  forall g g' e,
    state g = statePlayerTurn -> MoveSplit g = Ok (g', e) -> P g -> P g'.
Hypothesis P_playerBet : forall g b, P g -> P (set_playerBet b g).

Lemma packageMove_preserves m g g' e :
  packageMove m -> state g = statePlayerTurn -> m g = Ok (g', e) ->
  P g -> P g'.
Proof.
  intros [-> | [-> | [-> | ->]]] Hp H HP.
  - eapply P_hit; eassumption.
  - eapply P_split; eassumption.
  - destruct (MoveDouble_inv g g' e H) as [[-> _]|(g1 & e1 & Hhit & Hstand)];
      [assumption|].
    eapply P_stand; [eassumption|]. eapply P_hit; [eassumption|].
    apply P_playerBet, HP.
  - eapply P_stand; eassumption.
Qed.

Lemma roundStep_preserves (w w' : World S) :
  fourMoves -> roundStep w w' -> P (game w) -> P (game w').
Proof.
  intros Hfour Hstep HP. destruct Hstep as [w w' Hp H|w w' Hd H].
  - unfold playerIter in H.
    apply bind_Ok in H as (hand & _ & H).
    apply bind_Ok in H as (up & _ & H).
    apply bind_Ok in H as ([m s] & Hplay & H).
    apply bind_Ok in H as ([g1 e] & Hmove & H).
    pose proof (packageMove_preserves m _ g1 e (Hfour _ _ _ _ _ Hplay) Hp Hmove HP)
      as HP1.
    destruct e as [[|msg]|].
    + apply bind_Ok in H as ([g2 e2] & Hstand & H). injection H as <-.
      cbn [game]. eapply P_stand; eassumption.
    + discriminate.
    + injection H as <-. exact HP1.
  - unfold dealerIter in H.
    apply bind_Ok in H as (up & _ & H).
    apply bind_Ok in H as ([g1 e] & Hmove & H). injection H as <-. cbn [game].
    unfold dealerAI_Play in Hmove.
    destruct (_ || _); [eapply P_hit|eapply P_stand]; eassumption.
Qed.

End Preserved.

Section Table.

Context {S : Type} {ai : AI S}.

(** X5.  In play no card is lost and none is made: from the deal to the
    end of the dealer's loop, the cards of the hands of the player, of the
    dealer and of the shoe are, in some order, the cards of the shoe with
    which the round began. *)
Theorem inPlay_conserves_cards (Hfour : fourMoves) (shuffled : bool)
    (w0 w : World S) (Hin : inPlay shuffled w0 w) :
  allCards (game w) ≡ₚ deck (game w0) /\
  (length (concat (map cards (player (game w)))) + length (dealer (game w))
   + length (deck (game w)) = length (deck (game w0)))%nat.
Proof.
  assert (Hperm : allCards (game w) ≡ₚ deck (game w0)).
  { induction Hin as [w1 g Hbet Hdeal|w w' _ IH Hstep].
    - assert (Hdeck : deck (game w1) = deck (game w0)).
      { unfold placeBet in Hbet. apply bind_Ok in Hbet as ([a s] & _ & H).
        destruct (a <? 100); [discriminate|]. injection H as <-. reflexivity. }
      pose proof (deal_cases (game w1)) as Hcases. rewrite <- Hdeck.
      destruct (deck (game w1)) as [|c1 [|c2 [|c3 [|c4 rest]]]];
        rewrite Hcases in Hdeal; try discriminate.
      injection Hdeal as <-. unfold allCards. cbn.
      rewrite (Permutation_swap c3 c2). reflexivity.
    - refine (roundStep_preserves (fun g => allCards g ≡ₚ deck (game w0))
                _ _ _ _ w w' Hfour Hstep IH).
      + intros g g' e H HP. rewrite (MoveHit_conserves g g' e H). exact HP.
      + intros g g' e H HP. rewrite (MoveStand_conserves g g' e H). exact HP.
      + intros g g' e Hp H HP. rewrite (MoveSplit_conserves g g' e Hp H). exact HP.
      + intros g b HP. exact HP. }
  split; [exact Hperm|].
  apply Permutation_length in Hperm. unfold allCards in Hperm.
  rewrite !length_app in Hperm. lia.
Qed.


Lemma MoveHit_player g g' e :
  MoveHit g = Ok (g', e) ->
  exists cs, player g' = alter (set_cards cs) (handIdx g) (player g)
             \/ player g' = player g.
Proof.
  intros H. apply MoveHit_inv in H as (hand & c & rest & _ & _ & -> & _).
  exists (hand ++ [c]). unfold afterHit, set_currentHand. cbn [state set_deck].
  destruct (state g =? statePlayerTurn); cbn; auto.
Qed.

(** X6.  Every hand in play carries the amount the strategy bet at the
    start of the round, which is at least 100: no move changes the bet of
    a hand, and a split copies it.  There is always at least one hand. *)
Theorem inPlay_bets (Hfour : fourMoves) (shuffled : bool)
    (w0 w : World S) (Hin : inPlay shuffled w0 w) :
  exists amount s,
    Bet shuffled (strat w0) = Ok (amount, s) /\ 100 <= amount /\
    Forall (fun h => bet h = amount) (player (game w)) /\
    (1 <= length (player (game w)))%nat.
Proof.
  induction Hin as [w1 g Hbet Hdeal|w w' _ IH Hstep].
  - unfold placeBet in Hbet. apply bind_Ok in Hbet as ([a s] & HBet & H).
    exists a, s. split; [exact HBet|].
    destruct (Z.ltb_spec a 100); [discriminate|]. injection H as <-.
    split; [assumption|].
    unfold deal in Hdeal. apply bind_Ok in Hdeal as ([[ph dh] dk] & _ & H).
    injection H as <-. cbn. split; [|lia]. repeat constructor.
  - destruct IH as (a & s & HBet & Hmin & Hall).
    exists a, s. split; [exact HBet|]. split; [exact Hmin|].
    refine (roundStep_preserves
              (fun g => Forall (fun h => bet h = a) (player g) /\
                        (1 <= length (player g))%nat)
              _ _ _ _ w w' Hfour Hstep Hall).
    + intros g g' e H [HP Hl].
      destruct (MoveHit_step g g' e H) as (_ & _ & Hlen).
      destruct (MoveHit_player g g' e H) as [cs [-> | ->]]; [|split; assumption].
      split; [|rewrite length_alter; exact Hl].
      apply Forall_alter; [exact HP|]. intros h _ Hb. exact Hb.
    + intros g g' e H [HP Hl].
      destruct (MoveStand_cards g g' e H) as (-> & _). split; assumption.
    + intros g g' e Hp H [HP Hl].
      destruct (MoveSplit_inv g g' e Hp H)
        as [[-> _]|(h & c0 & c1 & Hh & _ & _ & -> & _)]; [split; assumption|].
      unfold afterSplit. cbn [player set_player].
      assert (Hb : bet h = a)
        by (eapply (proj1 (Forall_lookup _ _) HP); eassumption).
      split; [|rewrite length_app; simpl; lia].
      apply Forall_app. split; [|repeat constructor; exact Hb].
      apply Forall_insert; [exact HP|exact Hb].
    + intros g b HP. exact HP.
Qed.

End Table.

Lemma inPlay_conserves_cards_witness :
  fourMoves (ai := basicAI_AI) /\ allCards double_dealt ≡ₚ double_shoe.
Proof.
  split; [exact basicAI_fourMoves|].
  exact (proj1 (inPlay_conserves_cards (ai := basicAI_AI) basicAI_fourMoves
                  true double_world _ double_dealt_inPlay)).
Defined.

Lemma inPlay_bets_witness :
  exists amount,
    100 <= amount /\ Forall (fun h => bet h = amount) (player double_dealt).
Proof.
  destruct (inPlay_bets (ai := basicAI_AI) basicAI_fourMoves
              true double_world _ double_dealt_inPlay)
    as (amount & s & _ & Hmin & Hall & _).
  exists amount. split; assumption.
Defined.

(** ** The dealer's loop *)

Lemma dealerAI_Play_stands hand up :
  (dealerStands hand /\ dealerAI_Play hand up = MoveStand) \/
  (~ dealerStands hand /\ dealerAI_Play hand up = MoveHit).
Proof.
  unfold dealerStands, dealerAI_Play.
  destruct (Z.leb_spec (Score hand) 16); simpl; [right; split; [lia|reflexivity]|].
  destruct (Z.eqb_spec (Score hand) 17); simpl.
  - destruct (Soft hand); [right|left]; (split; [|reflexivity]).
    + intros [_ Hsoft]. specialize (Hsoft ltac:(assumption)). discriminate.
    + split; [lia|reflexivity].
  - left. split; [|reflexivity]. split; [lia|]. intros; contradiction.
Qed.

Section DealerLoop.

Context {S : Type}.

(** One iteration of the dealer's loop, in the dealer's turn: the dealer
    stands and the round is over, or the dealer takes the first card of
    the shoe. *)
Lemma dealerIter_cases (w w' : World S) :
  state (game w) = stateDealerTurn -> dealerIter w = Ok w' ->
  strat w' = strat w /\
  trace w' = trace w ++ [EvDealerPlay (dealer (game w))] /\
  ((dealerStands (dealer (game w)) /\
    game w' = set_state stateHandOver (game w)) \/
   (~ dealerStands (dealer (game w)) /\
    exists c rest,
      deck (game w) = c :: rest /\
      game w' = set_dealer (dealer (game w) ++ [c]) (set_deck rest (game w)))).
Proof.
  intros Hd H. unfold dealerIter in H.
  apply bind_Ok in H as (up & _ & H).
  apply bind_Ok in H as ([g1 e] & Hmove & H). injection H as <-. cbn [strat trace game].
  split; [reflexivity|]. split; [reflexivity|].
  destruct (dealerAI_Play_stands (dealer (game w)) up) as [[Hs Hm]|[Hs Hm]];
    rewrite Hm in Hmove.
  - left. split; [exact Hs|]. rewrite (MoveStand_dealer _ Hd) in Hmove.
    injection Hmove as <- _. reflexivity.
  - right. split; [exact Hs|].
    apply MoveHit_inv in Hmove as (hand & c & rest & Hcur & Hdeck & -> & _).
    exists c, rest. split; [exact Hdeck|].
    unfold currentHand in Hcur. rewrite Hd in Hcur. cbn in Hcur.
    injection Hcur as <-.
    unfold afterHit, set_currentHand. cbn [state set_deck]. rewrite Hd. reflexivity.
Qed.

Lemma dealerIter_outcome (w : World S) :
  state (game w) = stateDealerTurn ->
  (exists w', dealerIter w = Ok w') \/ dealerIter w = Panic index_out_of_range.
Proof.
  intros Hd. unfold dealerIter, dealerCard.
  destruct (dealer (game w)) as [|up hand] eqn:Hdl; [right; reflexivity|]. cbn [bind].
  destruct (dealerAI_Play_stands (up :: hand) up) as [[_ ->]|[_ ->]].
  - rewrite (MoveStand_dealer _ Hd). left. eexists. reflexivity.
  - destruct (deck (game w)) as [|c rest] eqn:Hdeck.
    + right. unfold MoveHit, currentHand. rewrite Hd, Hdeck. reflexivity.
    + left. assert (Hcur : currentHand (game w) = Ok (dealer (game w)))
        by (unfold currentHand; rewrite Hd; reflexivity).
      rewrite <- Hdl. rewrite (MoveHit_Ok _ _ c rest Hcur Hdeck). cbn [bind].
      eexists. reflexivity.
Qed.

Lemma dealerLoop_run (fuel : nat) (w : World S)
    (Hturn : state (game w) = stateDealerTurn) :
  ((length (deck (game w)) < fuel)%nat ->
   (exists w', dealerLoop fuel w = Ok w') \/
   dealerLoop fuel w = Panic index_out_of_range) /\
  (forall w',
     dealerLoop fuel w = Ok w' ->
     state (game w') = stateHandOver /\
     dealerStands (dealer (game w')) /\
     (exists drawn,
        dealer (game w') = dealer (game w) ++ drawn /\
        deck (game w) = drawn ++ deck (game w') /\
        exists tr, trace w' = trace w ++ tr /\ Forall isDealerPlay tr /\
                   length tr = Datatypes.S (length drawn)) /\
     player (game w') = player (game w) /\
     handIdx (game w') = handIdx (game w) /\
     playerBet (game w') = playerBet (game w) /\
     balance (game w') = balance (game w) /\
     strat w' = strat w).
Proof.
  revert w Hturn. induction fuel as [|fuel IH]; intros w Hturn.
  - split; [lia|]. simpl. rewrite Hturn. discriminate.
  - cbn [dealerLoop]. rewrite Hturn. cbn [Z.eqb stateDealerTurn].
    split.
    + intros Hfuel.
      destruct (dealerIter_outcome w Hturn) as [[w1 Hiter]|Hpanic];
        [|right; rewrite Hpanic; reflexivity].
      rewrite Hiter. cbn [bind].
      destruct (dealerIter_cases w w1 Hturn Hiter)
        as (_ & _ & [[_ Hg]|(_ & c & rest & Hdeck & Hg)]).
      * left. exists w1. destruct fuel; simpl; rewrite Hg; reflexivity.
      * apply (IH w1); [rewrite Hg; exact Hturn|].
        rewrite Hg. cbn. rewrite Hdeck in Hfuel. simpl in Hfuel. lia.
    + intros w' H. apply bind_Ok in H as (w1 & Hiter & Hloop).
      destruct (dealerIter_cases w w1 Hturn Hiter)
        as (Hs & Htr & [[Hstands Hg]|(_ & c & rest & Hdeck & Hg)]).
      * assert (w' = w1) as ->.
        { destruct fuel; simpl in Hloop; rewrite Hg in Hloop;
            injection Hloop as <-; reflexivity. }
        rewrite Hg. cbn. split; [reflexivity|]. split; [exact Hstands|].
        split; [|auto].
        exists []. rewrite !app_nil_r. split; [reflexivity|]. split; [reflexivity|].
        exists [EvDealerPlay (dealer (game w))]. split; [exact Htr|].
        split; [repeat constructor|reflexivity].
      * assert (Hturn1 : state (game w1) = stateDealerTurn)
          by (rewrite Hg; exact Hturn).
        destruct (proj2 (IH w1 Hturn1) w' Hloop)
          as (Hover & Hstands & (drawn & Hdl & Hdk & tr & Htr' & Hall & Hlen)
              & Hpl & Hidx & Hpb & Hbal & Hst).
        rewrite Hg in Hdl, Hdk, Hpl, Hidx, Hpb, Hbal. cbn in Hdl, Hdk, Hpl, Hidx, Hpb, Hbal.
        split; [exact Hover|]. split; [exact Hstands|].
        split; [|rewrite Hst; auto].
        exists (c :: drawn). rewrite Hdl, <- app_assoc. split; [reflexivity|].
        split; [rewrite Hdeck, Hdk; reflexivity|].
        exists (EvDealerPlay (dealer (game w)) :: tr).
        split; [rewrite Htr', Htr, <- app_assoc; reflexivity|].
        split; [constructor; [exact I|exact Hall]|simpl; rewrite Hlen; reflexivity].
Qed.

(** X7.  The dealer's loop, started in the dealer's turn.  With more fuel
    than there are cards in the shoe it does not run out of fuel: it
    returns, or panics with an index out of range (the shoe is empty, or
    the dealer has no card).  When it returns the round is over, the
    dealer holds the cards it had followed by the cards that left the
    front of the shoe, its hand is one on which its policy stands (17 or
    more, and not a soft 17), and the hands, the bets, the balance and the
    player's strategy are untouched. *)
Theorem dealerLoop_spec (fuel : nat) (w : World S)
    (Hturn : state (game w) = stateDealerTurn) :
  ((length (deck (game w)) < fuel)%nat ->
   (exists w', dealerLoop fuel w = Ok w') \/
   dealerLoop fuel w = Panic index_out_of_range) /\
  (forall w',
     dealerLoop fuel w = Ok w' ->
     state (game w') = stateHandOver /\
     dealerStands (dealer (game w')) /\
     (exists drawn,
        dealer (game w') = dealer (game w) ++ drawn /\
        deck (game w) = drawn ++ deck (game w') /\
        exists tr, trace w' = trace w ++ tr /\ Forall isDealerPlay tr /\
                   length tr = Datatypes.S (length drawn)) /\
     player (game w') = player (game w) /\
     handIdx (game w') = handIdx (game w) /\
     playerBet (game w') = playerBet (game w) /\
     balance (game w') = balance (game w) /\
     strat w' = strat w).
Proof. exact (dealerLoop_run fuel w Hturn). Qed.

End DealerLoop.

(** ** The player's loop ends *)

Lemma pairs_app l1 l2 : pairs (l1 ++ l2) = (pairs l1 + pairs l2)%nat.
Proof. induction l1 as [|h l1 IH]; simpl; [reflexivity|rewrite IH; lia]. Qed.

Lemma pending_active g h :
  player g !! handIdx g = Some h ->
  pending g = h :: drop (S (handIdx g)) (player g).
Proof. intros Hh. unfold pending. apply drop_S. exact Hh. Qed.

Lemma drop_alter_eq (f : hand -> hand) (l : list hand) i h :
  l !! i = Some h -> drop i (alter f i l) = f h :: drop (S i) l.
Proof.
  intros Hh. rewrite <- (drop_alter_lt f l (S i) i) by lia.
  apply drop_S. rewrite list_lookup_alter_eq, Hh. reflexivity.
Qed.

Lemma hit_potential g g' e :
  state g = statePlayerTurn -> MoveHit g = Ok (g', e) ->
  (potential g' < potential g)%nat /\ state g' = statePlayerTurn /\
  (handIdx g' < length (player g'))%nat.
Proof.
  intros Hp H. destruct (MoveHit_step g g' e H) as (Hs & Hi & Hl).
  apply MoveHit_inv in H as (hand & c & rest & Hcur & Hdeck & -> & _).
  apply currentHand_Ok in Hcur as [(_ & h & Hh & Hc)|(Hd & _)];
    [|rewrite Hp in Hd; discriminate].
  pose proof (lookup_lt_Some _ _ _ Hh) as Hlt.
  split; [|split; [rewrite Hs; exact Hp|rewrite Hi, Hl; exact Hlt]].
  unfold potential. rewrite (pending_active g h Hh).
  unfold pending, afterHit, set_currentHand. cbn [state set_deck]. rewrite Hp.
  cbn [Z.eqb statePlayerTurn handIdx player deck set_player set_deck].
  rewrite (drop_alter_eq _ _ _ h Hh), Hdeck. simpl.
  repeat match goal with |- context [if ?b then _ else _] => destruct b end; lia.
Qed.

Lemma stand_potential g g' e :
  state g = statePlayerTurn -> (handIdx g < length (player g))%nat ->
  MoveStand g = Ok (g', e) ->
  (potential g' < potential g)%nat /\ e = None.
Proof.
  intros Hp Hlt H. rewrite (MoveStand_player g Hp) in H. injection H as <- <-.
  split; [|reflexivity].
  destruct (lookup_lt_is_Some_2 _ _ Hlt) as [h Hh].
  unfold potential. rewrite (pending_active g h Hh).
  destruct (afterStand_fields g) as (Hi & Hpl & Hdk & _).
  unfold pending. rewrite Hi, Hpl, Hdk. simpl. lia.
Qed.

Lemma split_potential g g' :
  state g = statePlayerTurn -> MoveSplit g = Ok (g', None) ->
  (potential g' < potential g)%nat.
Proof.
  intros Hp H.
  destruct (MoveSplit_inv g g' None Hp H)
    as [[_ [msg Hmsg]]|(h & c0 & c1 & Hh & Hc & _ & -> & _)]; [discriminate|].
  pose proof (lookup_lt_Some _ _ _ Hh) as Hlt.
  unfold potential. rewrite (pending_active g h Hh).
  unfold pending, afterSplit. cbn [handIdx player deck set_player].
  rewrite drop_app_le by (rewrite length_insert; lia).
  rewrite list_insert_alter, (drop_alter_eq _ _ _ h Hh).
  simpl. rewrite pairs_app, length_app, Hc. simpl. lia.
Qed.

Lemma currentHand_returns g : currentHand g <> Timeout.
Proof.
  unfold currentHand.
  destruct (state g =? statePlayerTurn);
    [destruct (player g !! handIdx g); discriminate|].
  destruct (state g =? stateDealerTurn); discriminate.
Qed.

Lemma MoveHit_returns g : MoveHit g <> Timeout.
Proof.
  unfold MoveHit. pose proof (currentHand_returns g) as Hcur.
  destruct (currentHand g); cbn [bind]; try discriminate; try contradiction.
  destruct (deck g); cbn [draw bind]; try discriminate.
  match goal with |- context [if ?b then _ else _] => destruct b end; discriminate.
Qed.

Lemma MoveStand_returns g : MoveStand g <> Timeout.
Proof.
  unfold MoveStand.
  repeat match goal with |- context [if ?b then _ else _] => destruct b end;
    discriminate.
Qed.

Lemma packageMove_returns m g : packageMove m -> m g <> Timeout.
Proof.
  pose proof (currentHand_returns g) as Hcur.
  intros [-> | [-> | [-> | ->]]].
  - apply MoveHit_returns.
  - unfold MoveSplit.
    destruct (currentHand g) as [cs| |]; cbn [bind]; try discriminate;
      try contradiction.
    destruct (negb _); [discriminate|].
    destruct cs as [|c0 [|c1 cs]]; try discriminate.
    destruct (negb _); [discriminate|].
    destruct (player g !! handIdx g); discriminate.
  - unfold MoveDouble.
    destruct (currentHand g) as [cs| |]; cbn [bind]; try discriminate;
      try contradiction.
    destruct (negb _); [discriminate|].
    destruct (MoveHit _) as [[g1 e1]| |] eqn:E; cbn [bind]; try discriminate.
    + apply MoveStand_returns.
    + destruct (MoveHit_returns _ E).
  - apply MoveStand_returns.
Qed.

Lemma playerKeeps_refl g : playerKeeps g g.
Proof. repeat split. exists []. reflexivity. Qed.

Lemma playerKeeps_trans g1 g2 g3 :
  playerKeeps g1 g2 -> playerKeeps g2 g3 -> playerKeeps g1 g3.
Proof.
  intros (Hd1 & Hb1 & dr1 & Hk1) (Hd2 & Hb2 & dr2 & Hk2).
  split; [congruence|]. split; [congruence|].
  exists (dr1 ++ dr2). rewrite Hk1, Hk2, app_assoc. reflexivity.
Qed.

Lemma hit_keeps g g' e :
  state g = statePlayerTurn -> MoveHit g = Ok (g', e) -> playerKeeps g g'.
Proof.
  intros Hp H. apply MoveHit_inv in H as (hand & c & rest & _ & Hdeck & -> & _).
  destruct (afterHit_fields g hand c rest) as (Hdk & _ & _ & _ & Hb & _ & _ & Hd).
  split; [exact (Hd Hp)|]. split; [exact Hb|].
  exists [c]. rewrite Hdk, Hdeck. reflexivity.
Qed.

Lemma stand_keeps g g' e :
  state g = statePlayerTurn -> (handIdx g < length (player g))%nat ->
  MoveStand g = Ok (g', e) -> playerKeeps g g' /\ turnInv g'.
Proof.
  intros Hp Hlt H. rewrite (MoveStand_player g Hp) in H. injection H as <- _.
  destruct (afterStand_fields g) as (Hi & Hpl & Hdk & Hd & Hb & _ & Hst).
  split.
  - split; [exact Hd|]. split; [exact Hb|]. exists []. rewrite Hdk. reflexivity.
  - unfold turnInv. rewrite Hi, Hpl.
    destruct Hst as [[Hs Hle]|[Hs Hl]]; [right|left]; (split; [congruence || auto|lia]).
Qed.

Lemma split_keeps g g' :
  state g = statePlayerTurn -> MoveSplit g = Ok (g', None) ->
  playerKeeps g g' /\ turnInv g'.
Proof.
  intros Hp H.
  destruct (MoveSplit_inv g g' None Hp H)
    as [[_ [msg Hmsg]]|(h & c0 & c1 & Hh & _ & _ & -> & _)]; [discriminate|].
  pose proof (lookup_lt_Some _ _ _ Hh) as Hlt.
  split; [repeat split; exists []; reflexivity|].
  left. split; [exact Hp|]. unfold afterSplit. cbn [handIdx player set_player].
  rewrite length_app, length_insert. simpl. lia.
Qed.

Lemma playerLoop_exit {S : Type} {ai : AI S} fuel (w : World S) :
  state (game w) <> statePlayerTurn -> playerLoop fuel w = Ok w.
Proof.
  intros Hs. destruct fuel; simpl;
    destruct (Z.eqb_spec (state (game w)) statePlayerTurn); try contradiction;
    reflexivity.
Qed.

Section PlayerLoopEnds.

Context {S : Type} {ai : AI S}.

(** One iteration of the player's loop, in the player's turn. *)
Lemma playerIter_progress (w w' : World S) :
  fourMoves -> state (game w) = statePlayerTurn -> playerIter w = Ok w' ->
  (potential (game w') < potential (game w))%nat /\
  playerKeeps (game w) (game w') /\ turnInv (game w') /\
  exists hand, trace w' = trace w ++ [EvPlay (handIdx (game w)) hand].
Proof.
  intros Hfour Hp H. unfold playerIter in H.
  apply bind_Ok in H as (hand & Hcur & H).
  apply bind_Ok in H as (up & _ & H).
  apply bind_Ok in H as ([m s] & Hplay & H).
  apply bind_Ok in H as ([g1 e] & Hmove & H).
  apply currentHand_Ok in Hcur as [(_ & h & Hh & _)|(Hd & _)];
    [|rewrite Hp in Hd; discriminate].
  pose proof (lookup_lt_Some _ _ _ Hh) as Hlt.
  destruct (Hfour _ _ _ _ _ Hplay) as [-> | [-> | [-> | ->]]].
  - destruct (hit_potential _ g1 e Hp Hmove) as (Hpot & Hp1 & Hlt1).
    pose proof (hit_keeps _ g1 e Hp Hmove) as Hk.
    destruct e as [[|msg]|]; [|discriminate|].
    + apply bind_Ok in H as ([g2 e2] & Hstand & H). injection H as <-.
      cbn [game trace].
      destruct (stand_potential g1 g2 e2 Hp1 Hlt1 Hstand) as [Hpot2 _].
      destruct (stand_keeps g1 g2 e2 Hp1 Hlt1 Hstand) as [Hk2 Hinv].
      split; [lia|]. split; [exact (playerKeeps_trans _ _ _ Hk Hk2)|].
      split; [exact Hinv|]. eexists; reflexivity.
    + injection H as <-. cbn [game trace]. split; [exact Hpot|].
      split; [exact Hk|]. split; [left; auto|]. eexists; reflexivity.
  - destruct (MoveSplit_step _ g1 e Hmove) as (_ & _ & _ & Hne).
    destruct e as [[|msg]|]; [contradiction|discriminate|].
    injection H as <-. cbn [game trace].
    destruct (split_keeps _ g1 Hp Hmove) as [Hk Hinv].
    split; [apply split_potential; assumption|].
    split; [exact Hk|]. split; [exact Hinv|]. eexists; reflexivity.
  - destruct (MoveDouble_inv _ g1 e Hmove)
      as [[_ [msg ->]]|(g0 & e0 & Hhit & Hstand)]; [discriminate|].
    destruct (hit_potential (set_playerBet _ (game w)) g0 e0 Hp Hhit)
      as (Hpot & Hp1 & Hlt1).
    pose proof (hit_keeps (set_playerBet _ (game w)) g0 e0 Hp Hhit) as Hk.
    destruct (stand_potential g0 g1 e Hp1 Hlt1 Hstand) as [Hpot2 ->].
    destruct (stand_keeps g0 g1 None Hp1 Hlt1 Hstand) as [Hk2 Hinv].
    injection H as <-. cbn [game trace].
    split; [unfold potential, pending in *;
            cbn [deck handIdx player set_playerBet] in Hpot; lia|].
    split; [exact (playerKeeps_trans _ _ _ Hk Hk2)|].
    split; [exact Hinv|]. eexists; reflexivity.
  - destruct (stand_potential _ g1 e Hp Hlt Hmove) as [Hpot ->].
    destruct (stand_keeps _ g1 None Hp Hlt Hmove) as [Hk Hinv].
    injection H as <-. cbn [game trace].
    split; [exact Hpot|]. split; [exact Hk|]. split; [exact Hinv|].
    eexists; reflexivity.
Qed.

Lemma playerIter_returns (w : World S) :
  fourMoves -> (forall hand up s, Play hand up s <> Timeout) ->
  playerIter w <> Timeout.
Proof.
  intros Hfour Hplay. unfold playerIter.
  pose proof (currentHand_returns (game w)) as Hcur.
  destruct (currentHand (game w)) as [hand| |]; cbn [bind];
    try discriminate; try contradiction.
  unfold dealerCard. destruct (dealer (game w)) as [|up dl]; cbn [bind];
    try discriminate.
  destruct (Play hand up (strat w)) as [[m s]| |] eqn:HP; cbn [bind];
    try discriminate; [|destruct (Hplay _ _ _ HP)].
  pose proof (packageMove_returns m (game w) (Hfour _ _ _ _ _ HP)) as Hm.
  destruct (m (game w)) as [[g1 e]| |]; cbn [bind]; try discriminate;
    try contradiction.
  destruct e as [[|msg]|]; try discriminate.
  pose proof (MoveStand_returns g1) as Hst.
  destruct (MoveStand g1) as [[g2 e2]| |]; cbn [bind]; try discriminate;
    contradiction.
Qed.

Lemma playerLoop_run (Hfour : fourMoves) (fuel : nat) (w : World S)
    (Hturn : state (game w) = statePlayerTurn) :
  (strategyReturns -> (potential (game w) < fuel)%nat ->
   (exists w', playerLoop fuel w = Ok w') \/
   (exists msg, playerLoop fuel w = Panic msg)) /\
  (forall w',
     playerLoop fuel w = Ok w' ->
     state (game w') = stateDealerTurn /\
     handIdx (game w') = length (player (game w')) /\
     playerKeeps (game w) (game w') /\
     exists tr, trace w' = trace w ++ tr /\ Forall isPlay tr /\ tr <> []).
Proof.
  revert w Hturn. induction fuel as [|fuel IH]; intros w Hturn.
  { split; [lia|]. simpl. rewrite Hturn. discriminate. }
  cbn [playerLoop]. rewrite Hturn. cbn [Z.eqb statePlayerTurn]. split.
  - intros Hreturns Hfuel. pose proof Hreturns as (_ & Hplay & _).
    pose proof (playerIter_returns w Hfour Hplay) as Hret.
    destruct (playerIter w) as [w1| |] eqn:Hiter; cbn [bind];
      [|right; eauto|contradiction].
    destruct (playerIter_progress w w1 Hfour Hturn Hiter)
      as (Hpot & _ & [[Hp1 _]|[Hd1 _]] & _).
    + apply (proj1 (IH w1 Hp1)); [exact Hreturns|lia].
    + left. exists w1. apply playerLoop_exit. rewrite Hd1. discriminate.
  - intros w' H. apply bind_Ok in H as (w1 & Hiter & Hloop).
    destruct (playerIter_progress w w1 Hfour Hturn Hiter)
      as (_ & Hk & [[Hp1 _]|[Hd1 Hi1]] & hand & Htr).
    + destruct (proj2 (IH w1 Hp1) w' Hloop)
        as (Hd & Hi & Hk' & tr & Htr' & Hall & _).
      split; [exact Hd|]. split; [exact Hi|].
      split; [exact (playerKeeps_trans _ _ _ Hk Hk')|].
      exists (EvPlay (handIdx (game w)) hand :: tr).
      split; [rewrite Htr', Htr, <- app_assoc; reflexivity|].
      split; [constructor; [exact I|exact Hall]|discriminate].
    + rewrite playerLoop_exit in Hloop by (rewrite Hd1; discriminate).
      injection Hloop as <-.
      split; [exact Hd1|]. split; [exact Hi1|]. split; [exact Hk|].
      exists [EvPlay (handIdx (game w)) hand]. split; [exact Htr|].
      split; [repeat constructor|discriminate].
Qed.

(** X8.  The player's loop, started in the player's turn with a strategy
    that returns the moves of the package.  Every iteration lowers
    [potential] (four for each card of the shoe, three for each two-card
    hand still to play, two for each hand still to play), so with more
    fuel than that number and a strategy that returns, the loop returns
    or panics.  When it returns it is the dealer's turn and every hand
    has been played; the dealer's hand and the balance are as they were,
    the shoe has lost cards at its front only, and the strategy was asked
    to play at least once and for nothing else. *)
Theorem playerLoop_ends (Hfour : fourMoves) (fuel : nat) (w : World S)
    (Hturn : state (game w) = statePlayerTurn) :
  (strategyReturns -> (potential (game w) < fuel)%nat ->
   (exists w', playerLoop fuel w = Ok w') \/
   (exists msg, playerLoop fuel w = Panic msg)) /\
  (forall w',
     playerLoop fuel w = Ok w' ->
     state (game w') = stateDealerTurn /\
     handIdx (game w') = length (player (game w')) /\
     playerKeeps (game w) (game w') /\
     exists tr, trace w' = trace w ++ tr /\ Forall isPlay tr /\ tr <> []).
Proof. exact (playerLoop_run Hfour fuel w Hturn). Qed.

End PlayerLoopEnds.

Lemma dealerLoop_spec_witness :
  state (game dealer_turn_world) = stateDealerTurn /\
  dealerStands (dealer (game dealer_turn_done)).
Proof.
  split; [reflexivity|].
  exact (proj1 (proj2 (proj2 (dealerLoop_spec 4 dealer_turn_world eq_refl)
                         dealer_turn_done eq_refl))).
Defined.

(** ** The counting strategy returns *)

Lemma basicAI_returns : strategyReturns (ai := basicAI_AI).
Proof.
  split; [|split]; try (intros; discriminate).
  intros shuffled bi. cbn [Bet basicAI_AI]. unfold basicAI_Bet, div64.
  repeat match goal with
         | |- context [if ?b then _ else _] => destruct b; cbn [bind]
         end; discriminate.
Qed.

Lemma playerLoop_ends_witness :
  fourMoves (ai := basicAI_AI) /\
  state (game bust_world) = statePlayerTurn /\
  exists w', playerLoop 14 bust_world = Ok w' /\
             handIdx (game w') = length (player (game w')).
Proof.
  split; [exact basicAI_fourMoves|]. split; [reflexivity|].
  assert (Hrun : {w' | playerLoop 14 bust_world = Ok w'})
    by (eexists; vm_compute; reflexivity).
  destruct Hrun as [w' Hrun]. exists w'. split; [exact Hrun|].
  exact (proj1 (proj2 (proj2 (playerLoop_ends (ai := basicAI_AI) basicAI_fourMoves
                                14 bust_world eq_refl) w' Hrun))).
Defined.

(** ** A round ends *)

Section RoundEnds.

Context {S : Type} {ai : AI S}.

Lemma placeBet_Ok (w w1 : World S) shuffled :
  placeBet w shuffled = Ok w1 ->
  exists amount s,
    100 <= amount /\ Bet shuffled (strat w) = Ok (amount, s) /\
    w1 = mkWorld (set_playerBet amount (game w)) s (trace w ++ [EvBet shuffled]).
Proof.
  unfold placeBet. intros H. apply bind_Ok in H as ([amount s] & HB & H).
  destruct (Z.ltb_spec amount 100); [discriminate|]. injection H as <-.
  exists amount, s. auto.
Qed.

Lemma placeBet_returns (w : World S) shuffled :
  strategyReturns -> placeBet w shuffled <> Timeout.
Proof.
  intros (HB & _ & _). unfold placeBet. specialize (HB shuffled (strat w)).
  destruct (Bet shuffled (strat w)) as [[amount s]| |]; cbn [bind];
    [|discriminate|contradiction].
  destruct (amount <? 100); discriminate.
Qed.

Lemma endRound_Ok (w w' : World S) :
  endRound w = Ok w' ->
  player (game w') = [] /\ dealer (game w') = [] /\
  deck (game w') = deck (game w) /\ state (game w') = state (game w) /\
  trace w' = trace w ++ [EvResults].
Proof.
  unfold endRound. intros H. apply bind_Ok in H as (s & _ & H).
  injection H as <-. repeat split.
Qed.

Lemma endRound_returns (w : World S) :
  strategyReturns -> endRound w <> Timeout.
Proof.
  intros (_ & _ & HR). unfold endRound.
  match goal with |- context [Results ?a ?b ?c] =>
    specialize (HR a b c); destruct (Results a b c) as [s| |] end; cbn [bind];
    [discriminate|discriminate|contradiction].
Qed.

Lemma result_cases {A} (r : result A) :
  r <> Timeout -> (exists a, r = Ok a) \/ (exists msg, r = Panic msg).
Proof. destruct r; [left|right|contradiction]; eauto. Qed.

Lemma playRound_returns (Hfour : fourMoves) (Hreturns : strategyReturns)
    (fuel : nat) (shuffled : bool) (w : World S) :
  (4 * length (deck (game w)) <= fuel)%nat ->
  playRound fuel shuffled w <> Timeout.
Proof.
  intros Hfuel. unfold playRound.
  destruct (placeBet w shuffled) as [w0| |] eqn:Hbet; cbn [bind];
    [|discriminate|destruct (placeBet_returns w shuffled Hreturns Hbet)].
  apply placeBet_Ok in Hbet as (amount & s & _ & _ & ->).
  cbn [game strat trace].
  pose proof (deal_cases (set_playerBet amount (game w))) as Hdeal.
  cbn [deck set_playerBet] in Hdeal.
  destruct (deck (game w)) as [|c1 [|c2 [|c3 [|c4 rest]]]] eqn:Hdeck;
    try (rewrite Hdeal; discriminate).
  rewrite Hdeal. cbn [bind dealer]. clear Hdeal.
  set (g1 := mkGame _ _ _ rest statePlayerTurn _ _ _ _ _).
  set (w1 := mkWorld g1 s (trace w ++ [EvBet shuffled])).
  destruct (Blackjack [c2; c4]); [apply endRound_returns, Hreturns|].
  assert (Hpot : (potential (game w1) < fuel)%nat).
  { unfold potential, pending. cbn. simpl in Hfuel. lia. }
  destruct (playerLoop_run Hfour fuel w1 eq_refl) as [Hends Hrun].
  destruct (Hends Hreturns Hpot) as [[w2 Hloop]|[msg Hpanic]];
    [|rewrite Hpanic; discriminate].
  rewrite Hloop. cbn [bind].
  destruct (Hrun w2 Hloop) as (Hd2 & _ & (_ & _ & dr2 & Hdk2) & _).
  assert (Hlen : (length (deck (game w2)) < fuel)%nat).
  { cbn [game w1 deck g1] in Hdk2.
    apply (f_equal (@length Card)) in Hdk2. rewrite length_app in Hdk2.
    simpl in Hfuel. lia. }
  destruct (proj1 (dealerLoop_run fuel w2 Hd2) Hlen) as [[w3 Hloop3]|Hpanic];
    [|rewrite Hpanic; discriminate].
  rewrite Hloop3. cbn [bind]. apply endRound_returns, Hreturns.
Qed.

Lemma playRound_Ok (Hfour : fourMoves) (fuel : nat) (shuffled : bool)
    (w w' : World S) :
  playRound fuel shuffled w = Ok w' ->
  player (game w') = [] /\ dealer (game w') = [] /\
  (exists drawn, deck (game w) = drawn ++ deck (game w') /\
                 (4 <= length drawn)%nat) /\
  exists tr, trace w' = trace w ++ [EvBet shuffled] ++ tr ++ [EvResults] /\
             Forall (fun ev => isPlay ev \/ isDealerPlay ev) tr.
Proof.
  unfold playRound. intros H.
  apply bind_Ok in H as (w0 & Hbet & H).
  apply placeBet_Ok in Hbet as (amount & s & _ & _ & ->).
  apply bind_Ok in H as (g1 & Hdeal & H). cbn [game strat trace] in Hdeal, H.
  pose proof (deal_cases (set_playerBet amount (game w))) as Hcases.
  cbn [deck set_playerBet] in Hcases.
  destruct (deck (game w)) as [|c1 [|c2 [|c3 [|c4 rest]]]] eqn:Hdeck;
    try (rewrite Hcases in Hdeal; discriminate).
  rewrite Hcases in Hdeal. injection Hdeal as <-. cbn [dealer] in H.
  set (g1 := mkGame _ _ _ rest statePlayerTurn _ _ _ _ _) in H.
  set (w1 := mkWorld g1 s (trace w ++ [EvBet shuffled])) in H.
  destruct (Blackjack [c2; c4]).
  - apply endRound_Ok in H as (Hpl & Hdl & Hdk & _ & Htr).
    split; [exact Hpl|]. split; [exact Hdl|].
    split; [exists [c1; c2; c3; c4]; rewrite Hdk; split; [reflexivity|simpl; lia]|].
    exists []. rewrite Htr. cbn [trace w1]. rewrite <- app_assoc.
    split; [reflexivity|constructor].
  - apply bind_Ok in H as (w2 & Hloop2 & H).
    apply bind_Ok in H as (w3 & Hloop3 & H).
    destruct (proj2 (playerLoop_run Hfour fuel w1 eq_refl) w2 Hloop2)
      as (Hd2 & _ & (_ & _ & dr2 & Hdk2) & tr2 & Htr2 & Hall2 & _).
    destruct (proj2 (dealerLoop_run fuel w2 Hd2) w3 Hloop3)
      as (_ & _ & (dr3 & _ & Hdk3 & tr3 & Htr3 & Hall3 & _) & _).
    apply endRound_Ok in H as (Hpl & Hdl & Hdk & _ & Htr).
    split; [exact Hpl|]. split; [exact Hdl|].
    split.
    + exists ([c1; c2; c3; c4] ++ dr2 ++ dr3). rewrite Hdk.
      cbn [game w1 deck g1] in Hdk2. rewrite Hdk2, Hdk3.
      split; [rewrite <- !app_assoc; reflexivity|].
      rewrite length_app. simpl. lia.
    + exists (tr2 ++ tr3). rewrite Htr, Htr3, Htr2. cbn [trace w1].
      split; [rewrite <- !app_assoc; reflexivity|].
      apply Forall_app. split.
      * eapply Forall_impl; [exact Hall2|]. intros ev Hev. left. exact Hev.
      * eapply Forall_impl; [exact Hall3|]. intros ev Hev. right. exact Hev.
Qed.

(** X9.  A round, played with a strategy that returns the moves of the
    package.  With fuel four times the number of cards of the shoe, and a
    strategy whose methods return, the round does not run out of fuel: it
    returns or panics.  When it returns the table is empty, at least four
    cards have left the front of the shoe and no other, and the strategy
    was asked for its bet first, then to play, and for the results last;
    the dealer's moves lie in between. *)
Theorem playRound_ends (Hfour : fourMoves) (fuel : nat) (shuffled : bool)
    (w : World S) :
  (strategyReturns -> (4 * length (deck (game w)) <= fuel)%nat ->
   (exists w', playRound fuel shuffled w = Ok w') \/
   (exists msg, playRound fuel shuffled w = Panic msg)) /\
  (forall w',
     playRound fuel shuffled w = Ok w' ->
     player (game w') = [] /\ dealer (game w') = [] /\
     (exists drawn, deck (game w) = drawn ++ deck (game w') /\
                    (4 <= length drawn)%nat) /\
     exists tr, trace w' = trace w ++ [EvBet shuffled] ++ tr ++ [EvResults] /\
                Forall (fun ev => isPlay ev \/ isDealerPlay ev) tr).
Proof.
  split.
  - intros Hreturns Hfuel. apply result_cases.
    apply playRound_returns; assumption.
  - intros w'. apply playRound_Ok, Hfour.
Qed.

End RoundEnds.

Lemma playRound_ends_witness :
  fourMoves (ai := basicAI_AI) /\
  exists w', playRound 24 true double_world = Ok w' /\ player (game w') = [].
Proof.
  split; [exact basicAI_fourMoves|].
  assert (Hrun : {w' | playRound 24 true double_world = Ok w'})
    by (eexists; vm_compute; reflexivity).
  destruct Hrun as [w' Hrun]. exists w'. split; [exact Hrun|].
  exact (proj1 (proj2 (playRound_ends (ai := basicAI_AI) basicAI_fourMoves
                         24 true double_world) w' Hrun)).
Defined.

(** ** A session *)

Section Session.

Context {S : Type} {ai : AI S}.

Variable newShoe : Z -> nat -> list Card.

Lemma rounds_Ok (Hfour : fourMoves) fuel minCards todo : forall i (w w' : World S),
  rounds newShoe fuel minCards todo i w = Ok w' ->
  exists tr, trace w' = trace w ++ tr /\ roundsTrace todo tr.
Proof.
  induction todo as [|todo IH]; intros i w w' H.
  - injection H as <-. exists []. rewrite app_nil_r. split; [reflexivity|constructor].
  - cbn [rounds] in H. apply bind_Ok in H as (w1 & Hround & H).
    destruct (playRound_Ok Hfour _ _ _ _ Hround)
      as (_ & _ & _ & tr & Htr & Hall).
    destruct (IH _ _ _ H) as (rest & Hrest & Hrt).
    exists ([EvBet (Z.of_nat (length (deck (game w))) <? minCards)]
              ++ tr ++ [EvResults] ++ rest).
    split; [|constructor; assumption].
    rewrite Hrest, Htr. cbn [trace]. rewrite <- !app_assoc. reflexivity.
Qed.

Lemma rounds_returns (Hfour : fourMoves) (Hreturns : strategyReturns) fuel minCards
    (Hshoe : forall n i, (4 * length (newShoe n i) <= fuel)%nat) todo :
  forall i (w : World S),
    (4 * length (deck (game w)) <= fuel)%nat ->
    rounds newShoe fuel minCards todo i w <> Timeout.
Proof.
  induction todo as [|todo IH]; intros i w Hfuel; [discriminate|].
  cbn [rounds].
  set (w0 := mkWorld _ (strat w) (trace w)).
  assert (Hfuel0 : (4 * length (deck (game w0)) <= fuel)%nat).
  { unfold w0. cbn [game].
    destruct (_ <? _); [cbn [deck set_deck]; apply Hshoe|exact Hfuel]. }
  pose proof (playRound_returns Hfour Hreturns fuel
                (Z.of_nat (length (deck (game w))) <? minCards) w0 Hfuel0) as Hret.
  destruct (playRound _ _ w0) as [w1| |] eqn:Hround; cbn [bind];
    [|discriminate|contradiction].
  apply IH.
  destruct (playRound_Ok Hfour _ _ _ _ Hround) as (_ & _ & (dr & Hdk & _) & _).
  apply (f_equal (@length Card)) in Hdk. rewrite length_app in Hdk. lia.
Qed.

(** X10.  A session, [Game.Play], with a strategy that returns the moves
    of the package.  If the methods of the strategy return and the fuel
    is four times the size of any shoe, the session does not run out of
    fuel: it returns or panics.  When it returns, the value is the
    balance, and the strategy has seen [nHands] rounds and nothing else
    (none if [nHands] is negative): in each round the bet, then the moves,
    then the results. *)
Theorem GamePlay_rounds (Hfour : fourMoves) (fuel : nat) (g : Game) (s : S) :
  (strategyReturns ->
   (forall n i, (4 * length (newShoe n i) <= fuel)%nat) ->
   (exists r, GamePlay newShoe fuel g s = Ok r) \/
   (exists msg, GamePlay newShoe fuel g s = Panic msg)) /\
  (forall winnings w,
     GamePlay newShoe fuel g s = Ok (winnings, w) ->
     winnings = balance (game w) /\
     roundsTrace (Z.to_nat (nHands g)) (trace w)).
Proof.
  unfold GamePlay. cbn [nDecks nHands set_deck]. split.
  - intros Hreturns Hshoe. apply result_cases.
    match goal with |- context [rounds ?a ?b ?c ?d ?e ?f] =>
      pose proof (rounds_returns Hfour Hreturns b c Hshoe d e f) as Hret;
      destruct (rounds a b c d e f) end; cbn [bind];
      [discriminate|discriminate|].
    exfalso. apply Hret; [simpl; lia|reflexivity].
  - intros winnings w H. apply bind_Ok in H as (w1 & Hrounds & H).
    injection H as <- <-. split; [reflexivity|].
    destruct (rounds_Ok Hfour _ _ _ _ _ _ Hrounds) as (tr & Htr & Hrt).
    rewrite Htr. exact Hrt.
Qed.

End Session.

Lemma GamePlay_rounds_witness :
  fourMoves (ai := basicAI_AI) /\
  exists winnings w,
    GamePlay (fun _ _ => oneDeck) 208 (New (mkOptions 1 2 Float64.zero))
             (mkBasicAI 0 0 2) = Ok (winnings, w) /\
    roundsTrace 2 (trace w).
Proof.
  split; [exact basicAI_fourMoves|].
  assert (Hrun : {r | GamePlay (fun _ _ => oneDeck) 208
                               (New (mkOptions 1 2 Float64.zero))
                               (mkBasicAI 0 0 2) = Ok r})
    by (eexists; vm_compute; reflexivity).
  destruct Hrun as [[winnings w] Hrun]. exists winnings, w.
  split; [exact Hrun|].
  exact (proj2 (proj2 (GamePlay_rounds (ai := basicAI_AI) (fun _ _ => oneDeck)
                         basicAI_fourMoves 208 (New (mkOptions 1 2 Float64.zero))
                         (mkBasicAI 0 0 2)) winnings w Hrun)).
Defined.

(** ** How the counting strategy can fail *)

Lemma bind_Panic {A B} (m : result A) (k : A -> result B) msg :
  bind m k = Panic msg ->
  m = Panic msg \/ exists a, m = Ok a /\ k a = Panic msg.
Proof.
  destruct m as [a|msg'|]; cbn [bind]; intros H;
    [right; eauto|left; injection H as ->; reflexivity|discriminate].
Qed.

(** The move the counting strategy chooses for the active hand is never
    refused. *)
Lemma basicAI_Play_outcome g hand up :
  state g = statePlayerTurn -> currentHand g = Ok hand ->
  match basicAI_Play hand up g with
  | Ok (g', e) => e = None \/ (e = Some errBust /\ state g' = statePlayerTurn)
  | Panic msg => msg = index_out_of_range
  | Timeout => False
  end.
Proof.
  intros Hp Hcur.
  assert (Hhit : forall g0, state g0 = statePlayerTurn -> currentHand g0 = Ok hand ->
            match MoveHit g0 with
            | Ok (g', e) => (e = None \/ (e = Some errBust /\ state g' = statePlayerTurn))
            | Panic msg => msg = index_out_of_range
            | Timeout => False
            end).
  { intros g0 Hp0 Hcur0. destruct (deck g0) as [|c rest] eqn:Hdeck.
    - unfold MoveHit. rewrite Hcur0, Hdeck. reflexivity.
    - rewrite (MoveHit_Ok g0 hand c rest Hcur0 Hdeck).
      destruct (afterHit_fields g0 hand c rest) as (_ & Hs & _).
      unfold bustSignal. destruct (_ >? _); [right|left]; auto.
      split; [reflexivity|]. rewrite Hs. exact Hp0. }
  pose proof Hcur as Hact.
  apply currentHand_Ok in Hact as [(_ & h & Hh & Hc)|(Hd & _)];
    [|rewrite Hp in Hd; discriminate].
  unfold basicAI_Play.
  match goal with |- context [if ?b then MoveSplit else _] => destruct b eqn:Hpair end.
  { destruct hand as [|c0 [|c1 [|c2 cs]]]; try discriminate.
    destruct (decide (c0 = c1)) as [->|]; [|discriminate].
    rewrite (MoveSplit_Ok g h c1 c1 Hp Hh Hc eq_refl). left. reflexivity. }
  match goal with |- context [if ?b then MoveDouble else _] => destruct b eqn:Hdbl end.
  { apply andb_true_iff in Hdbl as [Hlen _]. apply Nat.eqb_eq in Hlen.
    destruct (deck g) as [|c rest] eqn:Hdeck.
    - unfold MoveDouble. rewrite Hcur. cbn [bind]. rewrite Hlen. cbn [Nat.eqb negb].
      unfold MoveHit.
      change (currentHand (set_playerBet (wrap64 (playerBet g * 2)) g))
        with (currentHand g).
      rewrite Hcur. cbn [bind deck set_playerBet]. rewrite Hdeck. reflexivity.
    - rewrite (MoveDouble_Ok g hand c rest Hp Hcur Hlen Hdeck). left. reflexivity. }
  repeat match goal with |- context [if ?b then _ else _] => destruct b end;
    try (rewrite (MoveStand_player g Hp); left; reflexivity);
    apply Hhit; assumption.
Qed.

Lemma basicAI_playerIter_panics (w : World basicAI) msg :
  state (game w) = statePlayerTurn -> playerIter w = Panic msg ->
  msg = index_out_of_range.
Proof.
  intros Hp H. unfold playerIter in H.
  destruct (currentHand (game w)) as [hand| |] eqn:Hcur; cbn [bind] in H.
  2:{ unfold currentHand in Hcur. rewrite Hp in Hcur. cbn in Hcur.
      destruct (player (game w) !! handIdx (game w)); [discriminate|].
      congruence. }
  2:{ discriminate. }
  unfold dealerCard in H.
  destruct (dealer (game w)) as [|up dl]; cbn [bind] in H; [congruence|].
  cbn [Play basicAI_AI bind] in H.
  pose proof (basicAI_Play_outcome (game w) hand up Hp Hcur) as Hout.
  destruct (basicAI_Play hand up (game w)) as [[g1 e]| |]; cbn [bind] in H;
    [|congruence|contradiction].
  destruct Hout as [->|[-> Hp1]]; [discriminate|].
  rewrite (MoveStand_player g1 Hp1) in H. discriminate.
Qed.

Lemma basicAI_playerLoop_panics fuel : forall (w : World basicAI) msg,
  playerLoop fuel w = Panic msg -> msg = index_out_of_range.
Proof.
  induction fuel as [|fuel IH]; intros w msg H; cbn [playerLoop] in H;
    destruct (Z.eqb_spec (state (game w)) statePlayerTurn) as [Hp|Hp];
    try discriminate.
  apply bind_Panic in H as [H|(w1 & _ & H)].
  - exact (basicAI_playerIter_panics w msg Hp H).
  - exact (IH w1 msg H).
Qed.

Lemma dealerLoop_panics {S : Type} fuel : forall (w : World S) msg,
  dealerLoop fuel w = Panic msg -> msg = index_out_of_range.
Proof.
  induction fuel as [|fuel IH]; intros w msg H; cbn [dealerLoop] in H;
    destruct (Z.eqb_spec (state (game w)) stateDealerTurn) as [Hd|Hd];
    try discriminate.
  apply bind_Panic in H as [H|(w1 & _ & H)].
  - destruct (dealerIter_outcome w Hd) as [[w1 Hok]|Hpanic]; congruence.
  - exact (IH w1 msg H).
Qed.

Lemma basicAI_Bet_Ok shuffled bi amount bi' :
  basicAI_Bet shuffled bi = Ok (amount, bi') ->
  bi' = counted shuffled bi /\
  (amount = 100 \/ amount = 5000 \/ amount = 100000) /\
  (shuffled = true -> amount = 100).
Proof.
  unfold basicAI_Bet. fold (counted shuffled bi). intros H.
  apply bind_Ok in H as (remaining & _ & H).
  apply bind_Ok in H as (trueScore & Hts & H).
  assert (Hshuf : shuffled = true -> trueScore = 0).
  { intros ->. unfold div64 in Hts. cbn [counted score] in Hts.
    destruct (Z.eqb_spec remaining 0); [discriminate|]. injection Hts as <-.
    rewrite Z.quot_0_l by assumption. reflexivity. }
  destruct (Z.geb_spec trueScore 14).
  { injection H as <- <-. split; [reflexivity|]. split; [auto|].
    intros Hs. specialize (Hshuf Hs). lia. }
  destruct (Z.geb_spec trueScore 8); injection H as <- <-.
  - split; [reflexivity|]. split; [auto|].
    intros Hs. specialize (Hshuf Hs). lia.
  - split; [reflexivity|]. split; auto.
Qed.

Lemma basicAI_placeBet_panics (w : World basicAI) shuffled msg :
  placeBet w shuffled = Panic msg -> msg = divide_by_zero.
Proof.
  unfold placeBet. cbn [Bet basicAI_AI]. intros H.
  destruct (basicAI_Bet shuffled (strat w)) as [[amount bi']| |] eqn:HB;
    cbn [bind] in H; [| |discriminate].
  - destruct (basicAI_Bet_Ok _ _ _ _ HB) as (_ & Hamount & _).
    destruct (Z.ltb_spec amount 100); [lia|discriminate].
  - injection H as <-. unfold basicAI_Bet, div64 in HB.
    repeat match type of HB with
           | context [if ?b then _ else _] => destruct b; cbn [bind] in HB
           end; congruence.
Qed.

Lemma basicAI_endRound_panics (w : World basicAI) msg :
  endRound w <> Panic msg.
Proof. unfold endRound. cbn [Results basicAI_AI bind]. discriminate. Qed.

Lemma basicAI_playRound_panics fuel shuffled (w : World basicAI) msg :
  playRound fuel shuffled w = Panic msg ->
  msg = index_out_of_range \/ msg = divide_by_zero.
Proof.
  unfold playRound. intros H.
  apply bind_Panic in H as [H|(w0 & _ & H)];
    [right; exact (basicAI_placeBet_panics _ _ _ H)|].
  left. apply bind_Panic in H as [H|(g1 & _ & H)].
  { pose proof (deal_cases (game w0)) as Hdeal.
    destruct (deck (game w0)) as [|c1 [|c2 [|c3 [|c4 rest]]]]; congruence. }
  destruct (Blackjack (dealer g1)); [destruct (basicAI_endRound_panics _ _ H)|].
  apply bind_Panic in H as [H|(w2 & _ & H)];
    [exact (basicAI_playerLoop_panics _ _ _ H)|].
  apply bind_Panic in H as [H|(w3 & _ & H)];
    [exact (dealerLoop_panics _ _ _ H)|].
  destruct (basicAI_endRound_panics _ _ H).
Qed.

Lemma basicAI_rounds_panics newShoe fuel minCards todo :
  forall i (w : World basicAI) msg,
    rounds newShoe fuel minCards todo i w = Panic msg ->
    msg = index_out_of_range \/ msg = divide_by_zero.
Proof.
  induction todo as [|todo IH]; intros i w msg H; [discriminate|].
  cbn [rounds] in H. apply bind_Panic in H as [H|(w1 & _ & H)].
  - exact (basicAI_playRound_panics _ _ _ _ H).
  - exact (IH _ _ _ H).
Qed.

(** X11.  The counting strategy never makes a move the game refuses and
    never bets less than the minimum.  A round it plays, and a session,
    panic only with an index out of range (the shoe has run out of cards)
    or with the division by zero of its [Bet]. *)
Theorem basicAI_failures :
  (forall fuel shuffled (w : World basicAI) msg,
     playRound fuel shuffled w = Panic msg ->
     msg = index_out_of_range \/ msg = divide_by_zero) /\
  (forall newShoe fuel g bi msg,
     GamePlay (ai := basicAI_AI) newShoe fuel g bi = Panic msg ->
     msg = index_out_of_range \/ msg = divide_by_zero).
Proof.
  split; [exact basicAI_playRound_panics|].
  intros newShoe fuel g bi msg H. unfold GamePlay in H.
  apply bind_Panic in H as [H|(w & _ & H)]; [|discriminate].
  exact (basicAI_rounds_panics _ _ _ _ _ _ _ H).
Qed.

Lemma basicAI_failures_witness :
  playRound 3 false after_first_round = Panic divide_by_zero /\
  (divide_by_zero = index_out_of_range \/ divide_by_zero = divide_by_zero).
Proof.
  assert (H : playRound 3 false after_first_round = Panic divide_by_zero)
    by (vm_compute; reflexivity).
  split; [exact H|]. exact (proj1 basicAI_failures _ _ _ _ H).
Defined.

(** X12.  When [Bet] of the counting strategy returns, the amount is 100,
    5000 or 100000, never less than the minimum of the table; the
    counters it keeps are the ones it had, reset if the shoe was shuffled;
    and after a shuffle the amount is 100. *)
Theorem basicAI_Bet_amounts (shuffled : bool) (bi bi' : basicAI) (amount : Z)
    (Hbet : basicAI_Bet shuffled bi = Ok (amount, bi')) :
  bi' = counted shuffled bi /\
  (amount = 100 \/ amount = 5000 \/ amount = 100000) /\
  (shuffled = true -> amount = 100).
Proof. exact (basicAI_Bet_Ok shuffled bi amount bi' Hbet). Qed.

Lemma basicAI_Bet_amounts_witness :
  basicAI_Bet false (mkBasicAI 30 52 3) = Ok (100000, mkBasicAI 30 52 3) /\
  (100000 = 100 \/ 100000 = 5000 \/ 100000 = 100000).
Proof.
  split; [reflexivity|].
  exact (proj1 (proj2 (basicAI_Bet_amounts false (mkBasicAI 30 52 3)
                         (mkBasicAI 30 52 3) 100000 eq_refl))).
Defined.

(** ** The counters *)

Lemma Score_single c :
  Score [c] = if (Rank c =? Ace)%N then 11 else cardValue c.
Proof.
  rewrite Score_cases. pose proof (cardValue_bounds c) as Hb.
  assert (Hmin : minScore [c] = cardValue c).
  { unfold minScore. cbn [fold_left]. rewrite min_is_Zmin.
    unfold cardValue in *. apply wrap64_id.
    unfold in_range, min_int, max_int. lia. }
  rewrite Hmin. cbn [hasAce].
  destruct (N.eqb_spec (Rank c) Ace) as [Ha|Ha]; cbn [orb negb].
  - unfold cardValue. rewrite Ha. reflexivity.
  - rewrite orb_true_r. reflexivity.
Qed.

Lemma count_hiLo bi c :
  in_range (score bi) ->
  count bi c = mkBasicAI (wrap64 (score bi + hiLo c)) (wrap64 (seen bi + 1)) (decks bi).
Proof.
  intros Hr. unfold count, hiLo. rewrite Score_single. unfold cardValue, Ace, Ten, Six.
  destruct (N.eqb_spec (Rank c) 1) as [Ha|Ha]; cbn [orb].
  { reflexivity. }
  destruct (N.leb_spec 10 (Rank c)).
  { destruct (Z.geb_spec (Z.min (Z.of_N (Rank c)) 10) 10); [reflexivity|lia]. }
  destruct (Z.geb_spec (Z.min (Z.of_N (Rank c)) 10) 10); [lia|].
  destruct (N.leb_spec (Rank c) 6).
  - destruct (Z.leb_spec (Z.min (Z.of_N (Rank c)) 10) 6); [reflexivity|lia].
  - destruct (Z.leb_spec (Z.min (Z.of_N (Rank c)) 10) 6); [lia|].
    rewrite Z.add_0_r, (wrap64_id _ Hr). destruct bi; reflexivity.
Qed.

Lemma tallied_nil bi :
  in_range (score bi) -> in_range (seen bi) -> tallied bi [] = bi.
Proof.
  intros Hs Hn. unfold tallied. cbn. rewrite !Z.add_0_r, !wrap64_id by assumption.
  destruct bi; reflexivity.
Qed.

Lemma tallied_app bi cs1 cs2 :
  tallied (tallied bi cs1) cs2 = tallied bi (cs1 ++ cs2).
Proof.
  unfold tallied. cbn [score seen decks].
  rewrite !wrap64_add_l, map_app, length_app, Nat2Z.inj_add.
  f_equal; f_equal; [|lia].
  unfold sumZ. rewrite foldr_app.
  generalize (foldr Z.add 0 (map hiLo cs2)). intros z.
  induction (map hiLo cs1) as [|x l IH]; cbn [foldr]; [lia|].
  fold (sumZ l) in *. lia.
Qed.

Lemma count_fold cs : forall bi,
  in_range (score bi) -> in_range (seen bi) ->
  fold_left count cs bi = tallied bi cs.
Proof.
  induction cs as [|c cs IH]; intros bi Hs Hn; cbn [fold_left].
  - symmetry. apply tallied_nil; assumption.
  - rewrite (count_hiLo bi c Hs).
    rewrite IH by (cbn; apply wrap64_range).
    change (c :: cs) with ([c] ++ cs). rewrite <- tallied_app. f_equal.
    unfold tallied. cbn. rewrite Z.add_0_r. reflexivity.
Qed.

Lemma tallied_range bi cs :
  in_range (score (tallied bi cs)) /\ in_range (seen (tallied bi cs)).
Proof. split; apply wrap64_range. Qed.

Lemma basicAI_Results_tallied hands dealer bi :
  in_range (score bi) -> in_range (seen bi) ->
  basicAI_Results hands dealer bi = tallied bi (dealer ++ concat hands).
Proof.
  intros Hs Hn. unfold basicAI_Results.
  rewrite (count_fold dealer bi Hs Hn).
  destruct (tallied_range bi dealer) as [Hs' Hn'].
  rewrite <- tallied_app. generalize dependent (tallied bi dealer).
  induction hands as [|hand hands IH]; intros bi' Hs' Hn'; cbn [fold_left concat].
  - symmetry. apply tallied_nil; assumption.
  - rewrite (count_fold hand bi' Hs' Hn').
    destruct (tallied_range bi' hand) as [Hs2 Hn2].
    rewrite (IH _ Hs2 Hn2). apply tallied_app.
Qed.

Lemma sumZ_hiLo_perm cs cs' :
  cs ≡ₚ cs' -> sumZ (map hiLo cs) = sumZ (map hiLo cs').
Proof.
  unfold sumZ. induction 1; cbn [map foldr]; lia.
Qed.

Lemma tallied_perm bi cs cs' : cs ≡ₚ cs' -> tallied bi cs = tallied bi cs'.
Proof.
  intros Hperm. unfold tallied.
  rewrite (sumZ_hiLo_perm _ _ Hperm), (Permutation_length Hperm). reflexivity.
Qed.

(** X13.  [Results] of the counting strategy is Hi-Lo counting: the
    running count goes up by one for every card below seven it is shown
    and down by one for every ten, face and ace, the number of cards seen
    goes up by the number of cards shown, and the number of decks stays.
    The order in which the cards are shown does not matter, and the cards
    of a full deck leave the running count where it was. *)
Theorem basicAI_Results_hiLo (hands : list (list Card)) (dealer : list Card)
    (bi : basicAI) (Hscore : in_range (score bi)) (Hseen : in_range (seen bi)) :
  basicAI_Results hands dealer bi = tallied bi (dealer ++ concat hands) /\
  (forall hands' dealer',
     dealer' ++ concat hands' ≡ₚ dealer ++ concat hands ->
     basicAI_Results hands' dealer' bi = basicAI_Results hands dealer bi) /\
  (dealer ++ concat hands ≡ₚ oneDeck ->
   score (basicAI_Results hands dealer bi) = score bi).
Proof.
  split; [apply basicAI_Results_tallied; assumption|]. split.
  - intros hands' dealer' Hperm.
    rewrite !basicAI_Results_tallied by assumption. apply tallied_perm, Hperm.
  - intros Hperm. rewrite basicAI_Results_tallied by assumption.
    rewrite (tallied_perm _ _ _ Hperm). unfold tallied. cbn [score].
    replace (sumZ (map hiLo oneDeck)) with 0 by (vm_compute; reflexivity).
    rewrite Z.add_0_r. apply wrap64_id, Hscore.
Qed.

Lemma basicAI_Results_hiLo_witness :
  in_range (score (mkBasicAI 0 0 3)) /\ in_range (seen (mkBasicAI 0 0 3)) /\
  basicAI_Results [[mkCard Spade Ten; mkCard Diamond Seven]]
                  [mkCard Heart Ace; mkCard Club King] (mkBasicAI 0 0 3)
  = mkBasicAI (-3) 4 3.
Proof.
  assert (H0 : in_range 0) by (unfold in_range, min_int, max_int; lia).
  split; [exact H0|]. split; [exact H0|].
  exact (proj1 (basicAI_Results_hiLo [[mkCard Spade Ten; mkCard Diamond Seven]]
                  [mkCard Heart Ace; mkCard Club King] (mkBasicAI 0 0 3) H0 H0)).
Defined.

(** ** The counters and the shoe *)

Lemma MoveHit_nDecks g g' e : MoveHit g = Ok (g', e) -> nDecks g' = nDecks g.
Proof.
  intros H. apply MoveHit_inv in H as (hand & c & rest & _ & _ & -> & _).
  unfold afterHit, set_currentHand. cbn [state set_deck].
  destruct (state g =? statePlayerTurn); reflexivity.
Qed.

Lemma MoveStand_nDecks g g' e : MoveStand g = Ok (g', e) -> nDecks g' = nDecks g.
Proof.
  unfold MoveStand. intros H.
  destruct (state g =? stateDealerTurn); [injection H as <- _; reflexivity|].
  destruct (state g =? statePlayerTurn); [|injection H as <- _; reflexivity].
  match type of H with context [if ?b then _ else _] => destruct b end;
    injection H as <- _; reflexivity.
Qed.

Section TableKept.

Context {S : Type} {ai : AI S}.

Variable shoe : list Card.
Variable n : Z.

Lemma roundStep_table (w w' : World S) :
  fourMoves -> roundStep w w' ->
  allCards (game w) ≡ₚ shoe /\ nDecks (game w) = n ->
  allCards (game w') ≡ₚ shoe /\ nDecks (game w') = n.
Proof.
  intros Hfour Hstep HP.
  refine (roundStep_preserves (fun g => allCards g ≡ₚ shoe /\ nDecks g = n)
            _ _ _ _ w w' Hfour Hstep HP).
  - intros g g' e H [HP1 HP2].
    rewrite (MoveHit_conserves g g' e H), (MoveHit_nDecks g g' e H). auto.
  - intros g g' e H [HP1 HP2].
    rewrite (MoveStand_conserves g g' e H), (MoveStand_nDecks g g' e H). auto.
  - intros g g' e Hp H [HP1 HP2].
    rewrite (MoveSplit_conserves g g' e Hp H). split; [exact HP1|].
    destruct (MoveSplit_inv g g' e Hp H)
      as [[-> _]|(h & c0 & c1 & _ & _ & _ & -> & _)]; exact HP2.
  - intros g b HP'. exact HP'.
Qed.

Lemma playerLoop_table (Hfour : fourMoves) fuel : forall (w w' : World S),
  playerLoop fuel w = Ok w' ->
  allCards (game w) ≡ₚ shoe /\ nDecks (game w) = n ->
  allCards (game w') ≡ₚ shoe /\ nDecks (game w') = n.
Proof.
  induction fuel as [|fuel IH]; intros w w' H HP; cbn [playerLoop] in H;
    destruct (Z.eqb_spec (state (game w)) statePlayerTurn) as [Hp|Hp];
    try discriminate; try (injection H as <-; exact HP).
  apply bind_Ok in H as (w1 & Hiter & H).
  apply (IH w1 w' H).
  exact (roundStep_table w w1 Hfour (step_player w w1 Hp Hiter) HP).
Qed.

Lemma dealerLoop_table (Hfour : fourMoves) fuel : forall (w w' : World S),
  dealerLoop fuel w = Ok w' ->
  allCards (game w) ≡ₚ shoe /\ nDecks (game w) = n ->
  allCards (game w') ≡ₚ shoe /\ nDecks (game w') = n.
Proof.
  induction fuel as [|fuel IH]; intros w w' H HP; cbn [dealerLoop] in H;
    destruct (Z.eqb_spec (state (game w)) stateDealerTurn) as [Hd|Hd];
    try discriminate; try (injection H as <-; exact HP).
  apply bind_Ok in H as (w1 & Hiter & H).
  apply (IH w1 w' H).
  exact (roundStep_table w w1 Hfour (step_dealer w w1 Hd Hiter) HP).
Qed.

End TableKept.

Lemma basicAI_playerLoop_strat fuel : forall (w w' : World basicAI),
  playerLoop fuel w = Ok w' -> strat w' = strat w.
Proof.
  induction fuel as [|fuel IH]; intros w w' H; cbn [playerLoop] in H;
    destruct (Z.eqb_spec (state (game w)) statePlayerTurn) as [Hp|Hp];
    try discriminate; try (injection H as <-; reflexivity).
  apply bind_Ok in H as (w1 & Hiter & H). rewrite (IH w1 w' H).
  unfold playerIter in Hiter.
  apply bind_Ok in Hiter as (hand & _ & Hiter).
  apply bind_Ok in Hiter as (up & _ & Hiter).
  apply bind_Ok in Hiter as ([m s] & Hplay & Hiter).
  cbn [Play basicAI_AI] in Hplay. injection Hplay as _ <-.
  apply bind_Ok in Hiter as ([g1 e] & _ & Hiter).
  destruct e as [[|msg]|]; [|discriminate|injection Hiter as <-; reflexivity].
  apply bind_Ok in Hiter as ([g2 e2] & _ & Hiter). injection Hiter as <-. reflexivity.
Qed.

Lemma counted_range shuffled bi :
  in_range (score bi) -> in_range (seen bi) ->
  in_range (score (counted shuffled bi)) /\ in_range (seen (counted shuffled bi)).
Proof.
  intros Hs Hn. unfold counted. destruct shuffled; [|auto].
  cbn. unfold in_range, min_int, max_int. lia.
Qed.

Lemma basicAI_endRound_Ok (w w' : World basicAI) :
  endRound w = Ok w' ->
  strat w' = basicAI_Results (map cards (player (game w))) (dealer (game w)) (strat w) /\
  deck (game w') = deck (game w) /\ nDecks (game w') = nDecks (game w).
Proof.
  unfold endRound. cbn [Results basicAI_AI bind]. intros H. injection H as <-.
  repeat split.
Qed.

Lemma basicAI_playRound_counts fuel shuffled (w w' : World basicAI) :
  in_range (score (strat w)) -> in_range (seen (strat w)) ->
  playRound fuel shuffled w = Ok w' ->
  exists drawn,
    deck (game w) = drawn ++ deck (game w') /\
    strat w' = tallied (counted shuffled (strat w)) drawn /\
    nDecks (game w') = nDecks (game w).
Proof.
  intros Hs Hn H. unfold playRound in H.
  apply bind_Ok in H as (w0 & Hbet & H).
  apply placeBet_Ok in Hbet as (amount & s & _ & HB & ->).
  cbn [Bet basicAI_AI] in HB. apply basicAI_Bet_Ok in HB as (-> & _ & _).
  destruct (counted_range shuffled (strat w) Hs Hn) as [Hs0 Hn0].
  set (s0 := counted shuffled (strat w)) in *.
  apply bind_Ok in H as (g1 & Hdeal & H). cbn [game strat trace] in Hdeal, H.
  pose proof (deal_cases (set_playerBet amount (game w))) as Hcases.
  cbn [deck set_playerBet] in Hcases.
  destruct (deck (game w)) as [|c1 [|c2 [|c3 [|c4 rest]]]] eqn:Hdeck;
    try (rewrite Hcases in Hdeal; discriminate).
  rewrite Hcases in Hdeal. injection Hdeal as <-. cbn [dealer] in H.
  set (g1 := mkGame _ _ _ rest statePlayerTurn _ _ _ _ _) in H.
  set (w1 := mkWorld g1 s0 (trace w ++ [EvBet shuffled])) in H.
  assert (HP1 : allCards (game w1) ≡ₚ c1 :: c2 :: c3 :: c4 :: rest /\
                nDecks (game w1) = nDecks (game w)).
  { split; [|reflexivity]. unfold allCards. cbn.
    rewrite (Permutation_swap c3 c2). reflexivity. }
  destruct (Blackjack [c2; c4]).
  - apply basicAI_endRound_Ok in H as (Hst & Hdk & Hnd).
    exists [c1; c2; c3; c4]. rewrite Hdk, Hst, Hnd. cbn [game w1 deck g1 strat].
    split; [reflexivity|]. split; [|reflexivity].
    rewrite (basicAI_Results_tallied _ _ _ Hs0 Hn0). apply tallied_perm.
    cbn. etransitivity; [apply perm_skip, perm_swap|].
    etransitivity; [apply perm_swap|]. do 2 apply perm_skip. apply perm_swap.
  - apply bind_Ok in H as (w2 & Hloop2 & H).
    apply bind_Ok in H as (w3 & Hloop3 & H).
    destruct (proj2 (playerLoop_run basicAI_fourMoves fuel w1 eq_refl) w2 Hloop2)
      as (Hd2 & _ & (_ & _ & dr2 & Hdk2) & _).
    destruct (proj2 (dealerLoop_run fuel w2 Hd2) w3 Hloop3)
      as (_ & _ & (dr3 & _ & Hdk3 & _) & _ & _ & _ & _ & Hst3).
    pose proof (basicAI_playerLoop_strat fuel w1 w2 Hloop2) as Hst2.
    pose proof (playerLoop_table _ _ basicAI_fourMoves fuel w1 w2 Hloop2 HP1) as HP2.
    pose proof (dealerLoop_table _ _ basicAI_fourMoves fuel w2 w3 Hloop3 HP2)
      as [HP3 Hnd3].
    apply basicAI_endRound_Ok in H as (Hst & Hdk & Hnd).
    cbn [game w1 deck g1] in Hdk2.
    exists ([c1; c2; c3; c4] ++ dr2 ++ dr3).
    rewrite Hdk, Hst, Hnd, Hnd3, Hst3, Hst2. cbn [strat w1].
    split; [rewrite Hdk2, Hdk3, <- !app_assoc; reflexivity|].
    split; [|reflexivity].
    rewrite (basicAI_Results_tallied _ _ _ Hs0 Hn0). apply tallied_perm.
    unfold allCards in HP3. rewrite Hdk2, Hdk3 in HP3.
    rewrite app_assoc in HP3.
    change (c1 :: c2 :: c3 :: c4 :: dr2 ++ dr3 ++ deck (game w3))
      with ([c1; c2; c3; c4] ++ dr2 ++ dr3 ++ deck (game w3)) in HP3.
    rewrite !(app_assoc _ _ (deck (game w3))) in HP3.
    apply Permutation_app_inv_r in HP3.
    rewrite <- HP3. apply Permutation_app_comm.
Qed.

(** X14.  The counting strategy counts the cards that leave the shoe.
    After a round its counters are those it bet with (reset if the shoe
    had been shuffled) with the Hi-Lo tags of the cards that left the
    front of the shoe during the round added to the running count, and
    their number added to the cards seen. *)
Theorem basicAI_counts_the_shoe (fuel : nat) (shuffled : bool)
    (w w' : World basicAI)
    (Hscore : in_range (score (strat w))) (Hseen : in_range (seen (strat w)))
    (Hround : playRound fuel shuffled w = Ok w') :
  exists drawn,
    deck (game w) = drawn ++ deck (game w') /\
    strat w' = tallied (counted shuffled (strat w)) drawn.
Proof.
  destruct (basicAI_playRound_counts fuel shuffled w w' Hscore Hseen Hround)
    as (drawn & Hdk & Hst & _).
  exists drawn. split; assumption.
Qed.

Lemma basicAI_counts_the_shoe_witness :
  in_range (score (strat one_deck_world)) /\
  in_range (seen (strat one_deck_world)) /\
  exists drawn,
    deck (game one_deck_world) = drawn ++ deck (game after_first_round) /\
    strat after_first_round = tallied (counted true (strat one_deck_world)) drawn.
Proof.
  assert (H0 : in_range 0) by (unfold in_range, min_int, max_int; lia).
  assert (Hrun : playRound 3 true one_deck_world = Ok after_first_round)
    by (vm_compute; reflexivity).
  split; [exact H0|]. split; [exact H0|].
  exact (basicAI_counts_the_shoe 3 true one_deck_world after_first_round H0 H0 Hrun).
Defined.

(** ** The division of [Bet] in a session *)

Lemma index_neq_divide : index_out_of_range <> divide_by_zero.
Proof. discriminate. Qed.

Lemma basicAI_playRound_divides fuel shuffled (w : World basicAI) :
  playRound fuel shuffled w = Panic divide_by_zero ->
  basicAI_Bet shuffled (strat w) = Panic divide_by_zero.
Proof.
  unfold playRound. intros H.
  apply bind_Panic in H as [H|(w0 & _ & H)].
  { unfold placeBet in H. cbn [Bet basicAI_AI] in H.
    destruct (basicAI_Bet shuffled (strat w)) as [[amount bi']| |];
      cbn [bind] in H; [|injection H as ->; reflexivity|discriminate].
    destruct (amount <? 100); discriminate. }
  exfalso. apply index_neq_divide. symmetry.
  apply bind_Panic in H as [H|(g1 & _ & H)].
  { pose proof (deal_cases (game w0)) as Hdeal.
    destruct (deck (game w0)) as [|c1 [|c2 [|c3 [|c4 rest]]]]; congruence. }
  destruct (Blackjack (dealer g1)); [destruct (basicAI_endRound_panics _ _ H)|].
  apply bind_Panic in H as [H|(w2 & _ & H)];
    [exact (basicAI_playerLoop_panics _ _ _ H)|].
  apply bind_Panic in H as [H|(w3 & _ & H)];
    [exact (dealerLoop_panics _ _ _ H)|].
  destruct (basicAI_endRound_panics _ _ H).
Qed.

Section CountedShoe.

Variable newShoe : Z -> nat -> list Card.
Variable n : Z.

Hypothesis Hn : 3 <= n.
Hypothesis Hmax : 52 * n <= max_int.
Hypothesis Hshoe : forall i, Z.of_nat (length (newShoe n i)) = 52 * n.

Lemma minCards_bound : 52 <= minCards n.
Proof.
  unfold minCards. rewrite wrap64_id by (unfold in_range, min_int, max_int in *; lia).
  apply Z.quot_le_lower_bound; lia.
Qed.

(** One round of the session, from a state in which the shoe is
    counted. *)
Lemma round_shoeCounted fuel i (w : World basicAI) :
  shoeCounted n w ->
  let reshuffle := Z.of_nat (length (deck (game w))) <? minCards n in
  let g := if reshuffle then set_deck (newShoe (nDecks (game w)) i) (game w)
           else game w in
  let w0 := mkWorld g (strat w) (trace w) in
  playRound fuel reshuffle w0 <> Panic divide_by_zero /\
  (forall w1, playRound fuel reshuffle w0 = Ok w1 ->
     shoeCounted n w1 /\
     seen (strat w1) = 52 * n - Z.of_nat (length (deck (game w1)))).
Proof.
  intros (Hnd & Hdecks & Hs & Hsn & Hlen & Hcounted) reshuffle g w0.
  pose proof minCards_bound as Hmin.
  destruct (counted_range reshuffle (strat w) Hs Hsn) as [Hs0 Hsn0].
  assert (Hg : nDecks g = n /\
               52 <= Z.of_nat (length (deck g)) <= 52 * n /\
               decks (counted reshuffle (strat w)) = n /\
               seen (counted reshuffle (strat w))
               = 52 * n - Z.of_nat (length (deck g))).
  { unfold g, reshuffle.
    destruct (Z.ltb_spec (Z.of_nat (length (deck (game w)))) (minCards n)).
    - cbn [nDecks deck set_deck counted seen decks]. rewrite Hnd, Hshoe.
      repeat split; try assumption; lia.
    - cbn [counted]. destruct Hcounted as [Hlt|Hseen]; [lia|].
      repeat split; try assumption; lia. }
  destruct Hg as (Hgn & Hglen & Hdecks0 & Hseen0).
  assert (Hleft : cardsLeft (counted reshuffle (strat w))
                  = Z.of_nat (length (deck g))).
  { unfold cardsLeft. rewrite Hdecks0, Hseen0.
    rewrite (wrap64_id (n * 52)) by (unfold in_range, min_int, max_int in *; lia).
    replace (n * 52 - (52 * n - Z.of_nat (length (deck g))))
      with (Z.of_nat (length (deck g))) by lia.
    apply wrap64_id. unfold in_range, min_int, max_int in *. lia. }
  split.
  - intros H. apply basicAI_playRound_divides in H. cbn [strat w0] in H.
    apply basicAI_Bet_panics in H. lia.
  - intros w1 Hround.
    destruct (basicAI_playRound_counts fuel reshuffle w0 w1 Hs Hsn Hround)
      as (drawn & Hdk & Hst & Hnd1).
    cbn [game strat w0] in Hdk, Hst, Hnd1.
    apply (f_equal (@length Card)) in Hdk. rewrite length_app in Hdk.
    assert (Hseen1 : seen (strat w1) = 52 * n - Z.of_nat (length (deck (game w1)))).
    { rewrite Hst. unfold tallied. cbn [seen]. rewrite Hseen0.
      replace (52 * n - Z.of_nat (length (deck g)) + Z.of_nat (length drawn))
        with (52 * n - Z.of_nat (length (deck (game w1)))) by lia.
      apply wrap64_id. unfold in_range, min_int, max_int in *. lia. }
    split; [|exact Hseen1].
    unfold shoeCounted. rewrite Hnd1, Hgn.
    split; [reflexivity|]. split; [rewrite Hst; exact Hdecks0|].
    split; [rewrite Hst; apply wrap64_range|].
    split; [rewrite Hst; apply wrap64_range|].
    split; [lia|]. right. exact Hseen1.
Qed.

Lemma rounds_shoeCounted fuel todo : forall i (w : World basicAI),
  shoeCounted n w ->
  rounds newShoe fuel (minCards n) todo i w <> Panic divide_by_zero /\
  (forall w', rounds newShoe fuel (minCards n) todo i w = Ok w' ->
     shoeCounted n w' /\
     (todo <> O ->
      seen (strat w') = 52 * n - Z.of_nat (length (deck (game w'))))).
Proof.
  induction todo as [|todo IH]; intros i w Hinv.
  { split; [discriminate|]. intros w' H. injection H as <-.
    split; [exact Hinv|]. intros Hne. contradiction. }
  cbn [rounds].
  destruct (round_shoeCounted fuel i w Hinv) as [Hnodiv Hok].
  cbv zeta in Hnodiv, Hok. split.
  - intros H. apply bind_Panic in H as [H|(w1 & Hround & H)];
      [exact (Hnodiv H)|].
    destruct (Hok w1 Hround) as [Hinv1 _].
    exact (proj1 (IH _ w1 Hinv1) H).
  - intros w' H. apply bind_Ok in H as (w1 & Hround & H).
    destruct (Hok w1 Hround) as [Hinv1 Hseen1].
    destruct (proj2 (IH _ w1 Hinv1) w' H) as [Hinv' Hseen'].
    split; [exact Hinv'|]. intros _.
    destruct todo as [|todo']; [|apply Hseen'; discriminate].
    injection H as <-. exact Hseen1.
Qed.

(** X15.  A session in which the counting strategy is told the number of
    decks of the game, three or more, and every new shoe holds 52 cards
    a deck.  The division of [Bet] never fails: a round starts with a
    new shoe or with at least a third of one, which is 52 cards or more,
    and between two rounds the cards the strategy has seen are exactly
    the cards missing from the shoe.  If the session returns after at
    least one round, that is how it ends. *)
Theorem basicAI_Bet_safe (fuel : nat) (g : Game) (bi : basicAI)
    (Hgame : nDecks g = n) (Hdecks : decks bi = n)
    (Hscore : in_range (score bi)) (Hseen : in_range (seen bi)) :
  GamePlay newShoe fuel g bi <> Panic divide_by_zero /\
  (forall winnings w,
     GamePlay newShoe fuel g bi = Ok (winnings, w) -> 0 < nHands g ->
     seen (strat w) = 52 * n - Z.of_nat (length (deck (game w)))).
Proof.
  assert (Hinv : shoeCounted n (mkWorld (set_deck [] g) bi [])).
  { pose proof minCards_bound as Hmin. unfold shoeCounted.
    cbn [game strat deck set_deck nDecks length].
    split; [exact Hgame|]. split; [exact Hdecks|]. split; [exact Hscore|].
    split; [exact Hseen|]. split; [lia|]. left. lia. }
  unfold GamePlay. cbn [nDecks nHands set_deck]. rewrite Hgame.
  fold (minCards n).
  destruct (rounds_shoeCounted fuel (Z.to_nat (nHands g)) 0 _ Hinv) as [Hnodiv Hok].
  split.
  - intros H. apply bind_Panic in H as [H|(w & _ & H)]; [exact (Hnodiv H)|discriminate].
  - intros winnings w H Hhands. apply bind_Ok in H as (w1 & Hrounds & H).
    injection H as _ <-. apply (Hok w1 Hrounds). lia.
Qed.

End CountedShoe.

Lemma basicAI_Bet_safe_witness :
  GamePlay (fun _ _ => threeDecks) 624 (New (mkOptions 3 2 Float64.zero))
           (mkBasicAI 0 0 3) <> Panic divide_by_zero.
Proof.
  assert (H0 : in_range 0) by (unfold in_range, min_int, max_int; lia).
  assert (Hn : 3 <= 3) by lia.
  assert (Hmax : 52 * 3 <= max_int) by (unfold max_int; lia).
  exact (proj1 (basicAI_Bet_safe (fun _ _ => threeDecks) 3 Hn Hmax
                  (fun _ => eq_refl) 624 (New (mkOptions 3 2 Float64.zero))
                  (mkBasicAI 0 0 3) eq_refl eq_refl H0 H0)).
Defined.
